(** * MCP stdio client: JSON-RPC transport and response normalizer

    A shallow embedding of [MCPClient] (the runtime executor of
    mcp-code-wrapper, [src/index.ts]): the values it exchanges, the
    response normalizer ([normalizeResponse], [normalizeData]), the frame
    reader and request correlator (the [data] listener with its per-chunk
    decoding, [processBuffer], [request], the timeout handler), the
    handshake ([initialize]) and the teardown ([stop]). *)

From Stdlib Require Import ZArith List String Ascii Bool Lia.
From Stdlib Require Import DecimalString Strings.Byte.
From stdpp Require Import base gmap strings list.

Local Open Scope Z_scope.
Local Open Scope string_scope.
Local Open Scope list_scope.

(** ** JavaScript values

    The values that travel through the client are JSON data plus
    [undefined] (an absent property, an absent [result]).  An object is its
    list of own enumerable properties in [Object.entries] order; numbers
    are modelled on the integers. *)

#[local] Unset Elimination Schemes.
Inductive value : Type :=
| VUndefined
| VNull
| VBool (b : bool)
| VNum (n : Z)
| VStr (s : string)
| VArr (items : list value)
| VObj (props : list (string * value)).
#[local] Set Elimination Schemes.

Module Js.

(** Truthiness, as tested by [if (x)], [x || y] and [x && y]. *)
Definition truthy (v : value) : bool :=
  match v with
  | VUndefined | VNull => false
  | VBool b => b
  | VNum n => negb (Z.eqb n 0)
  | VStr s => negb (String.eqb s "")
  | VArr _ | VObj _ => true
  end.

(** [typeof v === 'object']: objects, arrays and [null]. *)
Definition typeof_object (v : value) : bool :=
  match v with
  | VNull | VArr _ | VObj _ => true
  | _ => false
  end.

Definition nullish (v : value) : bool :=
  match v with
  | VUndefined | VNull => true
  | _ => false
  end.

Fixpoint assoc (k : string) (props : list (string * value)) : option value :=
  match props with
  | [] => None
  | (k', v) :: rest => if String.eqb k k' then Some v else assoc k rest
  end.

(** Own property [k] of an object defined as [v], as [JSON.parse], an
    object spread and an assignment under an ordinary key do: an existing
    property keeps its place, a new one goes last. *)
Fixpoint obj_set (k : string) (v : value) (props : list (string * value))
  : list (string * value) :=
  match props with
  | [] => [(k, v)]
  | (k', v') :: rest =>
      if String.eqb k k' then (k', v) :: rest else (k', v') :: obj_set k v rest
  end.

(** The assignment [o[k] = v] on an object created by [{}].  Under the
    key [__proto__] it runs the setter inherited from [Object.prototype]:
    no own property is stored (an object or [null] operand becomes the
    prototype of [o], which is no part of a [value]; any other operand is
    dropped). *)
Definition assign (k : string) (v : value) (props : list (string * value))
  : list (string * value) :=
  if String.eqb k "__proto__" then props else obj_set k v props.

(** [v.name] on a non-nullish [v], for the property names the client
    reads ([content], [text], [id], [result], [error], [message]): only
    objects carry them. *)
Definition get_prop (v : value) (name : string) : value :=
  match v with
  | VObj props => match assoc name props with Some x => x | None => VUndefined end
  | _ => VUndefined
  end.

(** [v?.name] *)
Definition opt_prop (v : value) (name : string) : value :=
  if nullish v then VUndefined else get_prop v name.

(** [v?.[0]]: the first element of an array, the first character of a
    string, the property ["0"] of an object. *)
Definition opt_first (v : value) : value :=
  match v with
  | VArr (x :: _) => x
  | VStr (String c _) => VStr (String c EmptyString)
  | VObj props => match assoc "0" props with Some x => x | None => VUndefined end
  | _ => VUndefined
  end.

Definition string_of_Z (n : Z) : string :=
  NilZero.string_of_int (Z.to_int n).

Definition join (sep : string) (parts : list string) : string :=
  match parts with
  | [] => ""
  | p :: rest => fold_left (fun acc q => acc +:+ sep +:+ q) rest p
  end.

(** The values [String(v)] converts.  Conversion throws a [TypeError] on
    an object with an own property [toString] (in decoded data that
    property is no function, and [valueOf] returns the object itself), and
    on an array with such an element. *)
Fixpoint convertible (v : value) : bool :=
  match v with
  | VArr items => forallb convertible items
  | VObj props => negb (existsb (String.eqb "toString") (map fst props))
  | _ => true
  end.

(** [String(v)], the coercion applied by [JSON.parse] and [new Error], on
    the values it converts. *)
Fixpoint to_string (v : value) : string :=
  match v with
  | VUndefined => "undefined"
  | VNull => "null"
  | VBool true => "true"
  | VBool false => "false"
  | VNum n => string_of_Z n
  | VStr s => s
  | VArr items =>
      join "," (map (fun x => if nullish x then "" else to_string x) items)
  | VObj _ => "[object Object]"
  end.

End Js.

(** Structural induction on values, with the hypothesis available for
    every array element and every property value. *)
Section ValueInd.
Variable P : value -> Prop.
Hypothesis Hundef : P VUndefined.
Hypothesis Hnull : P VNull.
Hypothesis Hbool : forall b, P (VBool b).
Hypothesis Hnum : forall n, P (VNum n).
Hypothesis Hstr : forall s, P (VStr s).
Hypothesis Harr : forall items, Forall P items -> P (VArr items).
Hypothesis Hobj : forall props, Forall (fun kv => P (snd kv)) props -> P (VObj props).

Fixpoint value_ind (v : value) : P v :=
  match v with
  | VUndefined => Hundef
  | VNull => Hnull
  | VBool b => Hbool b
  | VNum n => Hnum n
  | VStr s => Hstr s
  | VArr items =>
      Harr items
        ((fix go (l : list value) : Forall P l :=
            match l with
            | [] => List.Forall_nil P
            | x :: l' => @List.Forall_cons _ P x l' (value_ind x) (go l')
            end) items)
  | VObj props =>
      Hobj props
        ((fix go (l : list (string * value)) : Forall (fun kv => P (snd kv)) l :=
            match l with
            | [] => List.Forall_nil _
            | (k, x) :: l' =>
                @List.Forall_cons _ (fun kv => P (snd kv)) (k, x) l' (value_ind x) (go l')
            end) props)
  end.
End ValueInd.

(** Objects met at run time have pairwise distinct keys. *)
Fixpoint nodup_keys (ks : list string) : bool :=
  match ks with
  | [] => true
  | k :: rest => negb (existsb (String.eqb k) rest) && nodup_keys rest
  end.

Fixpoint well_formed (v : value) : bool :=
  match v with
  | VArr items => forallb well_formed items
  | VObj props =>
      nodup_keys (map fst props)
      && forallb (fun kv : string * value => let (_, x) := kv in well_formed x) props
  | _ => true
  end.

(** No object of the value has an own property named [__proto__]: the
    objects whose rebuilding by assignment keeps every key and the
    prototype. *)
Fixpoint proto_free (v : value) : bool :=
  match v with
  | VArr items => forallb proto_free items
  | VObj props =>
      forallb (fun kv : string * value =>
                 let (k, x) := kv in negb (String.eqb k "__proto__") && proto_free x)
              props
  | _ => true
  end.

(** ** The response normalizer *)

Section Normalizer.

(** [JSON.parse] belongs to the JavaScript runtime: [Some v] is the
    decoded value, [None] a thrown [SyntaxError]. *)
Variable JSON_parse : string -> option value.

(** [normalizeData] (index.ts, lines 515-542). *)
Fixpoint normalizeData (data : value) : value :=
  match data with
  | VArr items => VArr (map normalizeData items)
  | VObj props =>
      let rebuilt :=
        VObj ((fix entries (ps acc : list (string * value)) :=
                 match ps with
                 | [] => acc
                 | (key, v) :: ps' =>
                     entries ps' (Js.assign key (normalizeData v) acc)
                 end) props [])
      in
      match props with
      | [(k, v)] =>
          if String.eqb k "" then
            if negb (Js.typeof_object v) then v else normalizeData v
          else rebuilt
      | _ => rebuilt
      end
  | _ => data
  end.

(** [result?.content?.[0]?.text] *)
Definition content_text (result : value) : value :=
  let content := Js.opt_prop result "content" in
  let first := if Js.nullish content then VUndefined else Js.opt_first content in
  Js.opt_prop first "text".

(** [normalizeResponse] (index.ts, lines 498-510). *)
Definition normalizeResponse (result : value) : value :=
  let text := content_text result in
  if Js.truthy text then
    match JSON_parse (Js.to_string text) with
    | Some parsed => normalizeData parsed
    | None => result
    end
  else normalizeData result.

End Normalizer.

(** ** A reference codec for the runtime's [JSON]

    [JSON.parse] and [JSON.stringify] are parameters of the client model.
    The codec below instantiates them for the concrete runs: it covers
    JSON text whose numbers are integer literals and whose strings use the
    two-character escapes; on other text [Json.parse] answers [None].
    Properties come in the order of the text (the runtime lists
    integer-like keys first). *)

Module Json.

(** The double-quote character (code 34). *)
Abbreviation dquote := (Ascii false true false false false true false false).

(** JSON text written with apostrophes where the wire has double quotes. *)
Fixpoint text (s : string) : string :=
  match s with
  | EmptyString => EmptyString
  | String c r => String (if Ascii.eqb c "'" then dquote else c) (text r)
  end.

Definition is_ws (c : ascii) : bool :=
  match c with
  | " "%char | "009"%char | "010"%char | "013"%char => true
  | _ => false
  end.

Fixpoint skip_ws (s : string) : string :=
  match s with
  | String c r => if is_ws c then skip_ws r else s
  | EmptyString => s
  end.

Definition digit_of (c : ascii) : option Z :=
  let n := Z.of_N (N_of_ascii c) in
  if (48 <=? n)%Z && (n <=? 57)%Z then Some (n - 48)%Z else None.

Fixpoint digits (acc : Z) (s : string) : Z * string :=
  match s with
  | String c r =>
      match digit_of c with
      | Some d => digits (acc * 10 + d)%Z r
      | None => (acc, s)
      end
  | EmptyString => (acc, s)
  end.

Definition starts_fraction (s : string) : bool :=
  match s with
  | String "."%char _ | String "e"%char _ | String "E"%char _ => true
  | _ => false
  end.

(** An integer literal without sign: [0] or a non-zero digit followed by
    digits. *)
Definition natural (s : string) : option (Z * string) :=
  match s with
  | String c r =>
      match digit_of c with
      | Some 0%Z => if starts_fraction r then None else
                      match r with
                      | String c' _ => match digit_of c' with
                                       | Some _ => None
                                       | None => Some (0%Z, r)
                                       end
                      | EmptyString => Some (0%Z, r)
                      end
      | Some d => let (n, r') := digits d r in
                  if starts_fraction r' then None else Some (n, r')
      | None => None
      end
  | EmptyString => None
  end.

Definition number (s : string) : option (value * string) :=
  match s with
  | String "-"%char r =>
      match natural r with
      | Some (n, r') => Some (VNum (- n), r')
      | None => None
      end
  | _ => match natural s with
         | Some (n, r') => Some (VNum n, r')
         | None => None
         end
  end.

Definition unescape (c : ascii) : option ascii :=
  match c with
  | dquote => Some dquote
  | "\"%char => Some "\"%char
  | "/"%char => Some "/"%char
  | "b"%char => Some "008"%char
  | "f"%char => Some "012"%char
  | "n"%char => Some "010"%char
  | "r"%char => Some "013"%char
  | "t"%char => Some "009"%char
  | _ => None
  end.

(** The characters of a string literal after its opening quote. *)
Fixpoint string_body (s : string) : option (string * string) :=
  match s with
  | EmptyString => None
  | String dquote r => Some (EmptyString, r)
  | String "\"%char (String e r) =>
      match unescape e, string_body r with
      | Some c, Some (body, r') => Some (String c body, r')
      | _, _ => None
      end
  | String "\"%char EmptyString => None
  | String c r =>
      if (N_of_ascii c <? 32)%N then None else
        match string_body r with
        | Some (body, r') => Some (String c body, r')
        | None => None
        end
  end.

Definition keyword (kw : string) (v : value) (s : string) : option (value * string) :=
  if String.prefix kw s
  then Some (v, String.substring (String.length kw) (String.length s - String.length kw) s)
  else None.

Fixpoint parse_value (fuel : nat) (s : string) {struct fuel} : option (value * string) :=
  match fuel with
  | O => None
  | S fuel' =>
      match skip_ws s with
      | String dquote r =>
          match string_body r with
          | Some (str, r') => Some (VStr str, r')
          | None => None
          end
      | String "["%char r =>
          match skip_ws r with
          | String "]"%char r' => Some (VArr [], r')
          | _ => match parse_elements fuel' r with
                 | Some (items, r') => Some (VArr items, r')
                 | None => None
                 end
          end
      | String "{"%char r =>
          match skip_ws r with
          | String "}"%char r' => Some (VObj [], r')
          | _ => match parse_members fuel' [] r with
                 | Some (props, r') => Some (VObj props, r')
                 | None => None
                 end
          end
      | String "n"%char _ as t => keyword "null" VNull t
      | String "t"%char _ as t => keyword "true" (VBool true) t
      | String "f"%char _ as t => keyword "false" (VBool false) t
      | t => number t
      end
  end
with parse_elements (fuel : nat) (s : string) {struct fuel} : option (list value * string) :=
  match fuel with
  | O => None
  | S fuel' =>
      match parse_value fuel' s with
      | Some (v, r) =>
          match skip_ws r with
          | String ","%char r' =>
              match parse_elements fuel' r' with
              | Some (vs, r'') => Some (v :: vs, r'')
              | None => None
              end
          | String "]"%char r' => Some ([v], r')
          | _ => None
          end
      | None => None
      end
  end
with parse_members (fuel : nat) (acc : list (string * value)) (s : string) {struct fuel}
  : option (list (string * value) * string) :=
  match fuel with
  | O => None
  | S fuel' =>
      match skip_ws s with
      | String dquote r =>
          match string_body r with
          | Some (key, r1) =>
              match skip_ws r1 with
              | String ":"%char r2 =>
                  match parse_value fuel' r2 with
                  | Some (v, r3) =>
                      let acc' := Js.obj_set key v acc in
                      match skip_ws r3 with
                      | String ","%char r4 => parse_members fuel' acc' r4
                      | String "}"%char r4 => Some (acc', r4)
                      | _ => None
                      end
                  | None => None
                  end
              | _ => None
              end
          | None => None
          end
      | _ => None
      end
  end.

Definition parse (s : string) : option value :=
  match parse_value (2 * String.length s + 2) s with
  | Some (v, r) => match skip_ws r with EmptyString => Some v | _ => None end
  | None => None
  end.

Definition hex_digit (n : N) : ascii :=
  if (n <? 10)%N then ascii_of_N (48 + n) else ascii_of_N (87 + n).

Definition escape (c : ascii) : string :=
  match c with
  | dquote => String "\" (String dquote "")
  | "\"%char => "\\"
  | "008"%char => "\b"
  | "012"%char => "\f"
  | "010"%char => "\n"
  | "013"%char => "\r"
  | "009"%char => "\t"
  | _ =>
      let n := N_of_ascii c in
      if (n <? 32)%N
      then "\u00" +:+ String (hex_digit (n / 16)) (String (hex_digit (n mod 16)) "")
      else String c ""
  end.

Fixpoint quote_body (s : string) : string :=
  match s with
  | EmptyString => ""
  | String c r => escape c +:+ quote_body r
  end.

Definition quote (s : string) : string :=
  String dquote (quote_body s +:+ String dquote "").

(** [JSON.stringify] on a defined value: [undefined] is written [null]
    inside an array and its property is left out of an object. *)
Fixpoint stringify (v : value) : string :=
  match v with
  | VUndefined | VNull => "null"
  | VBool true => "true"
  | VBool false => "false"
  | VNum n => Js.string_of_Z n
  | VStr s => quote s
  | VArr items => "[" +:+ Js.join "," (map stringify items) +:+ "]"
  | VObj props =>
      "{" +:+
      Js.join ","
        ((fix members (ps : list (string * value)) : list string :=
            match ps with
            | [] => []
            | (k, VUndefined) :: ps' => members ps'
            | (k, x) :: ps' => (quote k +:+ ":" +:+ stringify x) :: members ps'
            end) props)
      +:+ "}"
  end.

End Json.

(** ** The client

    [MCPClient] (index.ts, lines 390-575).  Besides the fields of the class
    the state carries what the event loop holds for it: the timers armed by
    [setTimeout] and, for every promise created by [request], the
    invocations of its [resolve] and [reject]. *)

Inductive signal : Type := SIGTERM | SIGKILL.

(** The spawned child: what was written to its [stdin], whether the
    [data] listener is still attached to its [stdout], and the signals
    sent to it. *)
Record worker : Type := mkWorker {
  stdin : list string;
  listening : bool;
  signals : list signal
}.

(** [new Error(message)], or the [TypeError] raised by reading [stdin] of
    an unset process handle. *)
Inductive error : Type :=
| Error (message : string)
| TypeError.

Inductive outcome : Type :=
| Resolved (result : value)
| Rejected (err : error).

(** The table entry [{ resolve, reject }]: the two callbacks of the promise
    created by call number [call]. *)
Record pending : Type := mkPending { call : Z }.

Record client : Type := mkClient {
  process : option worker;
  requestId : Z;
  pendingRequests : gmap Z pending;
  buffer : string;
  timers : gmap Z string;
  settled : list (Z * outcome)
}.

Definition newline : string := String "010" EmptyString.

(** [new MCPClient()] *)
Definition new_client : client :=
  {| process := None; requestId := 0; pendingRequests := ∅;
     buffer := EmptyString; timers := ∅; settled := [] |}.

Definition set_process (w : option worker) (st : client) : client :=
  {| process := w; requestId := requestId st;
     pendingRequests := pendingRequests st; buffer := buffer st;
     timers := timers st; settled := settled st |}.

Definition set_pending (m : gmap Z pending) (st : client) : client :=
  {| process := process st; requestId := requestId st;
     pendingRequests := m; buffer := buffer st;
     timers := timers st; settled := settled st |}.

Definition set_buffer (b : string) (st : client) : client :=
  {| process := process st; requestId := requestId st;
     pendingRequests := pendingRequests st; buffer := b;
     timers := timers st; settled := settled st |}.

Definition set_timers (t : gmap Z string) (st : client) : client :=
  {| process := process st; requestId := requestId st;
     pendingRequests := pendingRequests st; buffer := buffer st;
     timers := t; settled := settled st |}.

(** An invocation of [resolve] or [reject] of the promise of call [c]. *)
Definition settle (c : Z) (o : outcome) (st : client) : client :=
  {| process := process st; requestId := requestId st;
     pendingRequests := pendingRequests st; buffer := buffer st;
     timers := timers st; settled := settled st ++ [(c, o)] |}.

(** [process.stdin.write(frame)] *)
Definition write (frame : string) (w : worker) : worker :=
  {| stdin := stdin w ++ [frame]; listening := listening w; signals := signals w |}.

(** The state of the promise of call [c]: its first settlement. *)
Fixpoint first_outcome (c : Z) (log : list (Z * outcome)) : option outcome :=
  match log with
  | [] => None
  | (c', o) :: rest => if Z.eqb c c' then Some o else first_outcome c rest
  end.

Definition promise_state (st : client) (c : Z) : option outcome :=
  first_outcome c (settled st).

(** [s.split('\n')] *)
Fixpoint split_lines (s : string) : list string :=
  match s with
  | EmptyString => [EmptyString]
  | String c r =>
      if Ascii.eqb c "010" then EmptyString :: split_lines r
      else match split_lines r with
           | l :: ls => String c l :: ls
           | [] => [String c EmptyString]
           end
  end.

Definition is_space (c : ascii) : bool :=
  match c with
  | " "%char | "009"%char | "010"%char | "011"%char | "012"%char | "013"%char => true
  | _ => false
  end.

(** [!line.trim()]: the line holds white space only.  Characters are
    8-bit; of the white space [trim] strips, the ASCII part is modelled. *)
Fixpoint is_blank (line : string) : bool :=
  match line with
  | EmptyString => true
  | String c r => is_space c && is_blank r
  end.

(** The complete segments of the accumulator, and what [lines.pop() || '']
    leaves in it. *)
Definition complete_lines (buf : string) : list string := removelast (split_lines buf).
Definition remainder (buf : string) : string := List.last (split_lines buf) EmptyString.

(** ** Decoding a chunk

    [data.toString()] on a [Buffer]: the UTF-8 decoder of the runtime, run
    on the bytes of one chunk.  Text is held in its UTF-8 form, so a
    well-formed sequence is copied; every byte that can start or continue
    none, and every sequence cut short by another byte or by the end of
    the chunk, becomes one U+FFFD. *)

Module Utf8.

(** U+FFFD, as text holds it. *)
Definition replacement : string :=
  String "239" (String "191" (String "189" EmptyString)).

(** The decoder between two bytes: at a character boundary, or inside a
    sequence, with the bytes read so far, the number of bytes still due
    and the range the next one has to lie in. *)
Inductive decoder : Type :=
| Boundary
| Inside (seen : string) (due : nat) (lower upper : N).

Definition between (lower n upper : N) : bool :=
  (lower <=? n)%N && (n <=? upper)%N.

Definition char (b : byte) : string := String (ascii_of_byte b) EmptyString.

(** A byte met at a character boundary. *)
Definition lead (b : byte) : string * decoder :=
  let n := Byte.to_N b in
  if (n <=? 127)%N then (char b, Boundary)
  else if between 194 n 223 then (EmptyString, Inside (char b) 1 128 191)
  else if between 224 n 239 then
    (EmptyString,
     Inside (char b) 2 (if (n =? 224)%N then 160%N else 128%N)
                       (if (n =? 237)%N then 159%N else 191%N))
  else if between 240 n 244 then
    (EmptyString,
     Inside (char b) 3 (if (n =? 240)%N then 144%N else 128%N)
                       (if (n =? 244)%N then 143%N else 191%N))
  else (replacement, Boundary).

Definition step (d : decoder) (b : byte) : string * decoder :=
  match d with
  | Boundary => lead b
  | Inside seen due lower upper =>
      if between lower (Byte.to_N b) upper then
        match due with
        | S (S k) => (EmptyString, Inside (seen +:+ char b) (S k) 128 191)
        | _ => (seen +:+ char b, Boundary)
        end
      else let (out, d') := lead b in (replacement +:+ out, d')
  end.

Fixpoint decode (d : decoder) (data : list byte) : string * decoder :=
  match data with
  | [] => (EmptyString, d)
  | b :: rest =>
      let (out, d') := step d b in
      let (out', d'') := decode d' rest in
      (out +:+ out', d'')
  end.

(** The end of the buffer. *)
Definition flush (d : decoder) : string :=
  match d with
  | Boundary => EmptyString
  | Inside _ _ _ _ => replacement
  end.

Definition toString (data : list byte) : string :=
  let (out, d) := decode Boundary data in out +:+ flush d.

(** The chunk ends on a character boundary. *)
Definition whole (data : list byte) : bool :=
  match snd (decode Boundary data) with
  | Boundary => true
  | Inside _ _ _ _ => false
  end.

End Utf8.

Section Client.

Variable JSON_parse : string -> option value.
Variable JSON_stringify : value -> string.

(** [response.error.message || JSON.stringify(response.error)], turned
    into the message of the [Error]. *)
Definition error_message (err : value) : string :=
  let message := Js.get_prop err "message" in
  if Js.truthy message then Js.to_string message else JSON_stringify err.

(** [this.pendingRequests.get(response.id)]: the keys are numbers. *)
Definition get_pending (id : value) (st : client) : option (Z * pending) :=
  match id with
  | VNum n => match pendingRequests st !! n with
              | Some p => Some (n, p)
              | None => None
              end
  | _ => None
  end.

(** The body of the loop of [processBuffer] (lines 423-439).  The message
    of the [Error] is taken with [Js.to_string], the conversion of the
    messages that are [Js.convertible].  On a line of [throws_in_error]
    (below) that finds its entry the constructor throws instead, behind the
    [delete]: the entry is gone and neither callback is invoked.  The
    model follows the code on all other lines, among them every response
    whose error message is a string. *)
Definition handle_line (st : client) (line : string) : client :=
  if is_blank line then st
  else
    match JSON_parse line with
    | None => st
    | Some response =>
        if Js.nullish response then st
        else
          match get_pending (Js.get_prop response "id") st with
          | None => st
          | Some (id, p) =>
              let st' := set_pending (delete id (pendingRequests st)) st in
              let err := Js.get_prop response "error" in
              if Js.truthy err
              then settle (call p) (Rejected (Error (error_message err))) st'
              else settle (call p) (Resolved (Js.get_prop response "result")) st'
          end
    end.

(** The line decodes to a response with an error whose message
    [new Error(...)] cannot convert. *)
Definition throws_in_error (line : string) : bool :=
  match JSON_parse line with
  | Some response =>
      let err := Js.get_prop response "error" in
      let message := Js.get_prop err "message" in
      Js.truthy err && Js.truthy message && negb (Js.convertible message)
  | None => false
  end.

(** [processBuffer] (lines 418-441). *)
Definition processBuffer (st : client) : client :=
  fold_left handle_line (complete_lines (buffer st))
    (set_buffer (remainder (buffer st)) st).

(** The body of the [data] listener of the child's [stdout] (lines
    403-404), [chunk] being the text [data.toString()] ... *)
Definition on_data (chunk : string) (st : client) : client :=
  processBuffer (set_buffer (buffer st +:+ chunk) st).

(** ... and the listener itself (lines 402-405), called with the bytes
    read from the pipe: every chunk is decoded on its own. *)
Definition on_stdout (data : list byte) (st : client) : client :=
  on_data (Utf8.toString data) st.

(** The callback handed to [setTimeout] by the request [id] (lines
    469-474). *)
Definition on_timeout (id : Z) (method : string) (st : client) : client :=
  match pendingRequests st !! id with
  | Some _ =>
      settle id (Rejected (Error ("Request timeout: " +:+ method)))
        (set_pending (delete id (pendingRequests st)) st)
  | None => st
  end.

Definition request_frame (id : Z) (method : string) (params : value) : string :=
  JSON_stringify
    (VObj [("jsonrpc", VStr "2.0"); ("id", VNum id);
           ("method", VStr method); ("params", params)])
  +:+ newline.

(** [request] (lines 456-476): the executor of the promise.  With no
    process handle the write throws after the entry was stored, which
    rejects the promise and arms no timer. *)
Definition request (method : string) (params : value) (st : client) : Z * client :=
  let id := requestId st + 1 in
  let st1 :=
    {| process := process st; requestId := id;
       pendingRequests := <[id := mkPending id]> (pendingRequests st);
       buffer := buffer st; timers := timers st; settled := settled st |} in
  match process st with
  | None => (id, settle id (Rejected TypeError) st1)
  | Some w =>
      (id, set_timers (<[id := method]> (timers st1))
             (set_process (Some (write (request_frame id method params) w)) st1))
  end.

Definition notification_frame (method : string) (params : value) : string :=
  JSON_stringify
    (VObj [("jsonrpc", VStr "2.0"); ("method", VStr method); ("params", params)])
  +:+ newline.

(** [notify] (lines 478-485); [None] when the write throws. *)
Definition notify (method : string) (params : value) (st : client) : option client :=
  match process st with
  | None => None
  | Some w => Some (set_process (Some (write (notification_frame method params) w)) st)
  end.

Definition initialize_params : value :=
  VObj [("protocolVersion", VStr "2024-11-05");
        ("capabilities", VObj []);
        ("clientInfo", VObj [("name", VStr "mcp-code-wrapper-executor");
                             ("version", VStr "1.0.0")])].

(** [start] (lines 396-416) up to the [await] inside [initialize]: the
    child is spawned, the listeners attached and the [initialize] request
    sent. *)
Definition start (st : client) : Z * client :=
  request "initialize" initialize_params
    (set_process (Some {| stdin := []; listening := true; signals := [] |}) st).

(** How [initialize] ends, and [start] with it: fulfilled, or rejected
    with the error thrown at its [await] or by [notify]. *)
Inductive handshake : Type :=
| Completed (st : client)
| Failed (e : error).

(** The rest of [initialize] (lines 443-454) behind
    [await this.request('initialize', ...)], [id] being the awaited
    request: nothing runs while its promise is unsettled; a resolved
    promise lets [notify] run (line 453); a rejected one makes the [await]
    throw, and [notify] is not reached. *)
Definition initialize_resume (id : Z) (st : client) : option handshake :=
  match promise_state st id with
  | None => None
  | Some (Resolved _) =>
      match notify "notifications/initialized" (VObj []) st with
      | Some st' => Some (Completed st')
      | None => Some (Failed TypeError)
      end
  | Some (Rejected e) => Some (Failed e)
  end.

(** [callTool] (lines 487-493) up to its [await] ... *)
Definition callTool (name : string) (args : value) (st : client) : Z * client :=
  let arguments := match args with VUndefined => VObj [] | _ => args end in
  request "tools/call" (VObj [("name", VStr name); ("arguments", arguments)]) st.

(** ... and what its caller gets once the request is settled. *)
Definition callTool_outcome (o : outcome) : outcome :=
  match o with
  | Resolved result => Resolved (normalizeResponse JSON_parse result)
  | Rejected e => Rejected e
  end.

(** [stop] (lines 544-575) up to its [await]: the table is cleared, the
    listeners removed and SIGTERM sent. *)
Definition stop (st : client) : client :=
  match process st with
  | None => st
  | Some w =>
      set_process
        (Some {| stdin := stdin w; listening := false;
                 signals := signals w ++ [SIGTERM] |})
        (set_pending ∅ st)
  end.

(** The end of [stop], once the [exit] event or the one-second timer has
    resolved the awaited promise: the handle is dropped.  The timer's own
    SIGKILL is not part of the model. *)
Definition stop_finish (st : client) : client := set_process None st.

(** What the event loop can run on a started client: a request, the
    [data] listener on a chunk whose text ([data.toString()]) is [chunk],
    the timer of a request. *)
Inductive event : Type :=
| Send (method : string) (params : value)
| Data (chunk : string)
| Timeout (id : Z).

Definition step (st : client) (e : event) : client :=
  match e with
  | Send method params => snd (request method params st)
  | Data chunk =>
      match process st with
      | Some w => if listening w then on_data chunk st else st
      | None => st
      end
  | Timeout id =>
      match timers st !! id with
      | Some method => on_timeout id method (set_timers (delete id (timers st)) st)
      | None => st
      end
  end.

Definition run (evs : list event) (st : client) : client := fold_left step evs st.

(** The lines handed to the loop body along a run. *)
Fixpoint lines_handled (evs : list event) (st : client) : list string :=
  match evs with
  | [] => []
  | e :: rest =>
      match e, process st with
      | Data chunk, Some w =>
          if listening w then complete_lines (buffer st +:+ chunk) else []
      | _, _ => []
      end ++ lines_handled rest (step st e)
  end.

(** [n] calls issued one after the other, none awaited. *)
Definition send_all (calls : list (string * value)) (st : client) : client :=
  run (map (fun c => Send (fst c) (snd c)) calls) st.


End Client.

(** * Properties *)

(** ** Objects and their keys *)

Definition map_values (f : value -> value) (props : list (string * value))
  : list (string * value) :=
  map (fun kv => (fst kv, f (snd kv))) props.

Lemma existsb_eqb_In (k : string) (ks : list string) :
  existsb (String.eqb k) ks = true <-> In k ks.
Proof.
  rewrite existsb_exists. split.
  - intros (x & Hin & Heq). apply String.eqb_eq in Heq. now subst.
  - intros Hin. exists k. split; [assumption | apply String.eqb_refl].
Qed.

Lemma nodup_keys_NoDup (ks : list string) :
  nodup_keys ks = true <-> List.NoDup ks.
Proof.
  induction ks as [|k ks IH]; simpl.
  - split; [constructor | reflexivity].
  - rewrite andb_true_iff, negb_true_iff, IH. split.
    + intros [Hk Hnd]. constructor; [|assumption].
      intros Hin. apply existsb_eqb_In in Hin. congruence.
    + intros Hnd. inversion Hnd as [|? ? Hk Hnd']; subst. split; [|assumption].
      destruct (existsb (String.eqb k) ks) eqn:E; [|reflexivity].
      apply existsb_eqb_In in E. contradiction.
Qed.

Lemma obj_set_fresh (k : string) (v : value) (props : list (string * value)) :
  ~ In k (map fst props) -> Js.obj_set k v props = props ++ [(k, v)].
Proof.
  induction props as [|[k' v'] props IH]; simpl; intros Hfresh.
  - reflexivity.
  - destruct (String.eqb k k') eqn:E.
    + apply String.eqb_eq in E. subst. exfalso. apply Hfresh. now left.
    + rewrite IH; [reflexivity | intros Hin; apply Hfresh; now right].
Qed.

(** The loop [for (const [key, value] of Object.entries(data))]. *)
Definition rebuild (props acc : list (string * value)) : list (string * value) :=
  fold_left (fun acc kv => Js.assign (fst kv) (normalizeData (snd kv)) acc) props acc.

Lemma normalizeData_obj (props : list (string * value)) :
  normalizeData (VObj props) =
  match props with
  | [(k, v)] =>
      if String.eqb k "" then
        if negb (Js.typeof_object v) then v else normalizeData v
      else VObj (rebuild props [])
  | _ => VObj (rebuild props [])
  end.
Proof.
  assert (Hfix : forall ps acc,
    (fix entries (ps acc : list (string * value)) :=
       match ps with
       | [] => acc
       | (key, v) :: ps' => entries ps' (Js.assign key (normalizeData v) acc)
       end) ps acc = rebuild ps acc).
  { induction ps as [|[k v] ps IH]; intros acc; simpl; [reflexivity | apply IH]. }
  destruct props as [|[k v] [|kv' rest]]; rewrite <- ?Hfix; reflexivity.
Qed.

(** The properties an assignment stores: all but [__proto__]. *)
Definition stored (kv : string * value) : bool :=
  negb (String.eqb (fst kv) "__proto__").

Lemma rebuild_stored (props acc : list (string * value)) :
  List.NoDup (map fst (acc ++ props)) ->
  rebuild props acc = acc ++ map_values normalizeData (List.filter stored props).
Proof.
  revert acc. induction props as [|[k v] props IH]; intros acc Hnd.
  - simpl. now rewrite app_nil_r.
  - change (rebuild ((k, v) :: props) acc)
      with (rebuild props (Js.assign k (normalizeData v) acc)).
    unfold Js.assign. simpl List.filter. unfold stored at 1. simpl fst.
    rewrite map_app in Hnd. simpl in Hnd.
    destruct (String.eqb k "__proto__") eqn:Hk; simpl negb; cbv iota.
    + apply IH. rewrite map_app. now apply NoDup_remove_1 in Hnd.
    + rewrite obj_set_fresh.
      * rewrite IH.
        -- rewrite <- app_assoc. reflexivity.
        -- rewrite <- app_assoc. rewrite map_app. simpl. exact Hnd.
      * apply NoDup_remove_2 in Hnd. intros Hin. apply Hnd.
        apply in_or_app. now left.
Qed.

Lemma map_values_keys (f : value -> value) (props : list (string * value)) :
  map fst (map_values f props) = map fst props.
Proof. unfold map_values. rewrite map_map. reflexivity. Qed.

(** An object that is not the empty-key envelope. *)
Definition envelope (props : list (string * value)) : bool :=
  match props with
  | [(k, _)] => String.eqb k ""
  | _ => false
  end.

Lemma envelope_map_values (f : value -> value) (props : list (string * value)) :
  envelope (map_values f props) = envelope props.
Proof. destruct props as [|[k v] [|kv rest]]; reflexivity. Qed.

Lemma normalizeData_stored (props : list (string * value)) :
  envelope props = false ->
  List.NoDup (map fst props) ->
  normalizeData (VObj props) = VObj (map_values normalizeData (List.filter stored props)).
Proof.
  intros Henv Hnd. rewrite normalizeData_obj.
  rewrite (rebuild_stored props []) by exact Hnd. simpl app.
  destruct props as [|[k v] [|kv rest]]; try reflexivity.
  simpl in Henv. now rewrite Henv.
Qed.

Lemma filter_stored_all (props : list (string * value)) :
  ~ In "__proto__" (map fst props) -> List.filter stored props = props.
Proof.
  induction props as [|[k v] props IH]; intros Hno; [reflexivity|].
  simpl. unfold stored at 1. simpl fst.
  destruct (String.eqb k "__proto__") eqn:Hk.
  - apply String.eqb_eq in Hk. subst. exfalso. apply Hno. now left.
  - simpl. f_equal. apply IH. intros Hin. apply Hno. now right.
Qed.

Lemma normalizeData_rebuilt (props : list (string * value)) :
  envelope props = false ->
  List.NoDup (map fst props) ->
  ~ In "__proto__" (map fst props) ->
  normalizeData (VObj props) = VObj (map_values normalizeData props).
Proof.
  intros Henv Hnd Hno. rewrite normalizeData_stored by assumption.
  now rewrite filter_stored_all.
Qed.

Lemma normalizeData_primitive (v : value) :
  Js.typeof_object v = false -> normalizeData v = v.
Proof. destruct v; simpl; intros H; try reflexivity; discriminate. Qed.

Lemma well_formed_obj (props : list (string * value)) :
  well_formed (VObj props) = true <->
  List.NoDup (map fst props) /\ Forall (fun kv => well_formed (snd kv) = true) props.
Proof.
  simpl. rewrite andb_true_iff, nodup_keys_NoDup, forallb_forall, List.Forall_forall.
  split; intros [Hnd Hall]; split; try assumption.
  - intros [k v] Hin. apply (Hall (k, v) Hin).
  - intros [k v] Hin. apply (Hall (k, v) Hin).
Qed.

Lemma well_formed_arr (items : list value) :
  well_formed (VArr items) = true <-> Forall (fun x => well_formed x = true) items.
Proof. simpl. rewrite forallb_forall, List.Forall_forall. reflexivity. Qed.

Lemma proto_free_obj (props : list (string * value)) :
  proto_free (VObj props) = true <->
  ~ In "__proto__" (map fst props) /\ Forall (fun kv => proto_free (snd kv) = true) props.
Proof.
  simpl. rewrite forallb_forall, List.Forall_forall. split.
  - intros Hall. split.
    + intros Hin. apply in_map_iff in Hin as ([k v] & Hk & Hin). simpl in Hk. subst k.
      specialize (Hall _ Hin). simpl in Hall. discriminate.
    + intros [k v] Hin. specialize (Hall _ Hin). simpl in Hall.
      now apply andb_true_iff in Hall.
  - intros [Hno Hall] [k v] Hin. apply andb_true_iff. split.
    + apply negb_true_iff. destruct (String.eqb k "__proto__") eqn:Hk; [|reflexivity].
      apply String.eqb_eq in Hk. subst k. exfalso. apply Hno.
      apply in_map_iff. now exists ("__proto__", v).
    + apply (Hall (k, v) Hin).
Qed.

Lemma proto_free_arr (items : list value) :
  proto_free (VArr items) = true <-> Forall (fun x => proto_free x = true) items.
Proof. simpl. rewrite forallb_forall, List.Forall_forall. reflexivity. Qed.

Lemma envelope_inv (props : list (string * value)) :
  envelope props = true -> exists v, props = [("", v)].
Proof.
  destruct props as [|[k v] [|kv rest]]; simpl; try discriminate.
  intros H. apply String.eqb_eq in H. subst. now exists v.
Qed.

Lemma normalizeData_envelope (v : value) :
  normalizeData (VObj [("", v)]) = if Js.typeof_object v then normalizeData v else v.
Proof. rewrite normalizeData_obj. simpl. now destruct (Js.typeof_object v). Qed.

Lemma normalizeData_well_formed (v : value) :
  well_formed v = true -> proto_free v = true ->
  well_formed (normalizeData v) = true.
Proof.
  induction v as [| | b | n | s | items IH | props IH] using value_ind;
    intros Hwf Hpf; try exact Hwf.
  - change (normalizeData (VArr items)) with (VArr (map normalizeData items)).
    apply well_formed_arr in Hwf. apply proto_free_arr in Hpf. apply well_formed_arr.
    rewrite List.Forall_forall in *. intros y Hy.
    apply in_map_iff in Hy as (x & <- & Hx). apply IH; auto.
  - apply well_formed_obj in Hwf as [Hnd Hall].
    apply proto_free_obj in Hpf as [Hno Hfree].
    destruct (envelope props) eqn:Henv.
    + apply envelope_inv in Henv as [v ->]. rewrite normalizeData_envelope.
      inversion IH as [|? ? IHv _]; subst. inversion Hall as [|? ? Hv _]; subst.
      inversion Hfree as [|? ? Hfv _]; subst.
      simpl in *. destruct (Js.typeof_object v); auto.
    + rewrite normalizeData_rebuilt by assumption.
      apply well_formed_obj. split.
      * now rewrite map_values_keys.
      * unfold map_values. rewrite List.Forall_forall in *.
        intros kv Hkv. apply in_map_iff in Hkv as ([k x] & <- & Hx). simpl.
        apply (IH (k, x) Hx); [apply (Hall (k, x) Hx) | apply (Hfree (k, x) Hx)].
Qed.

Lemma normalizeData_proto_free (v : value) :
  well_formed v = true -> proto_free v = true ->
  proto_free (normalizeData v) = true.
Proof.
  induction v as [| | b | n | s | items IH | props IH] using value_ind;
    intros Hwf Hpf; try exact Hpf.
  - change (normalizeData (VArr items)) with (VArr (map normalizeData items)).
    apply well_formed_arr in Hwf. apply proto_free_arr in Hpf. apply proto_free_arr.
    rewrite List.Forall_forall in *. intros y Hy.
    apply in_map_iff in Hy as (x & <- & Hx). apply IH; auto.
  - apply well_formed_obj in Hwf as [Hnd Hall].
    apply proto_free_obj in Hpf as [Hno Hfree].
    destruct (envelope props) eqn:Henv.
    + apply envelope_inv in Henv as [v ->]. rewrite normalizeData_envelope.
      inversion IH as [|? ? IHv _]; subst. inversion Hall as [|? ? Hv _]; subst.
      inversion Hfree as [|? ? Hfv _]; subst.
      simpl in *. destruct (Js.typeof_object v); auto.
    + rewrite normalizeData_rebuilt by assumption.
      apply proto_free_obj. split.
      * now rewrite map_values_keys.
      * unfold map_values. rewrite List.Forall_forall in *.
        intros kv Hkv. apply in_map_iff in Hkv as ([k x] & <- & Hx). simpl.
        apply (IH (k, x) Hx); [apply (Hall (k, x) Hx) | apply (Hfree (k, x) Hx)].
Qed.

Lemma normalizeData_idempotent (v : value) :
  well_formed v = true -> proto_free v = true ->
  normalizeData (normalizeData v) = normalizeData v.
Proof.
  induction v as [| | b | n | s | items IH | props IH] using value_ind;
    intros Hwf Hpf; try reflexivity.
  - change (normalizeData (VArr items)) with (VArr (map normalizeData items)).
    change (normalizeData (VArr (map normalizeData items)))
      with (VArr (map normalizeData (map normalizeData items))).
    f_equal. rewrite map_map. apply map_ext_in. intros x Hx.
    apply well_formed_arr in Hwf. apply proto_free_arr in Hpf.
    rewrite List.Forall_forall in *. auto.
  - apply well_formed_obj in Hwf as [Hnd Hall].
    apply proto_free_obj in Hpf as [Hno Hfree].
    destruct (envelope props) eqn:Henv.
    + apply envelope_inv in Henv as [v ->]. rewrite normalizeData_envelope.
      inversion IH as [|? ? IHv _]; subst. inversion Hall as [|? ? Hv _]; subst.
      inversion Hfree as [|? ? Hfv _]; subst.
      simpl in *. destruct (Js.typeof_object v) eqn:Hty; [auto|].
      now apply normalizeData_primitive.
    + rewrite normalizeData_rebuilt by assumption.
      rewrite normalizeData_rebuilt.
      * f_equal. unfold map_values. rewrite map_map. apply map_ext_in.
        intros [k x] Hx. simpl. f_equal. rewrite List.Forall_forall in *.
        apply (IH (k, x) Hx); [apply (Hall (k, x) Hx) | apply (Hfree (k, x) Hx)].
      * now rewrite envelope_map_values.
      * now rewrite map_values_keys.
      * now rewrite map_values_keys.
Qed.

(** ** The normalizer *)

Section NormalizerFacts.

Variable JSON_parse : string -> option value.

Local Abbreviation normalize := (normalizeResponse JSON_parse).


Lemma normalize_no_text (result : value) :
  Js.truthy (content_text result) = false ->
  normalize result = normalizeData result.
Proof. intros Hfalsy. unfold normalizeResponse. now rewrite Hfalsy. Qed.


(** [normalize x] exposes no [content[0].text] that decodes as JSON. *)
Definition plain (y : value) : Prop :=
  Js.truthy (content_text y) = false \/
  JSON_parse (Js.to_string (content_text y)) = None.

(** C3, as amended: on values none of whose objects has an own property
    named [__proto__], the recursive unwrapping step [normalizeData] is
    idempotent, and [normalize (normalize x) = normalize x] holds for every
    such [x] whose normalized form exposes no [content[0].text] that
    decodes as JSON. *)
Theorem normalize_idempotent_on_plain :
  (forall x, well_formed x = true -> proto_free x = true ->
             normalizeData (normalizeData x) = normalizeData x) /\
  (forall x,
      well_formed x = true -> proto_free x = true ->
      (forall parsed, JSON_parse (Js.to_string (content_text x)) = Some parsed ->
                      well_formed parsed = true /\ proto_free parsed = true) ->
      plain (normalize x) ->
      normalize (normalize x) = normalize x).
Proof.
  split; [exact normalizeData_idempotent|].
  intros x Hwf Hpf Hparsed [Hfalsy | Hfails].
  - rewrite (normalize_no_text _ Hfalsy).
    unfold normalizeResponse in *.
    destruct (Js.truthy (content_text x)) eqn:Hx.
    + destruct (JSON_parse (Js.to_string (content_text x))) as [parsed|] eqn:Hp.
      * destruct (Hparsed parsed eq_refl). now apply normalizeData_idempotent.
      * congruence.
    + now apply normalizeData_idempotent.
  - unfold normalizeResponse at 1.
    destruct (Js.truthy (content_text (normalize x))) eqn:Hy.
    + now rewrite Hfails.
    + unfold normalizeResponse in *.
      destruct (Js.truthy (content_text x)) eqn:Hx.
      * destruct (JSON_parse (Js.to_string (content_text x))) as [parsed|] eqn:Hp.
        -- destruct (Hparsed parsed eq_refl). now apply normalizeData_idempotent.
        -- congruence.
      * now apply normalizeData_idempotent.
Qed.



(** X22: an object whose only key is the empty string is unwrapped to the
    value under that key, normalized in turn when it is an object or an
    array and returned as it is when it is a primitive; any other object
    is rebuilt, in order, with its keys other than [__proto__] and
    normalized property values, so with the same keys when [__proto__] is
    not among them; a primitive passes through. *)
Theorem normalizeData_rebuilds_stored_keys :
  (forall v, normalizeData (VObj [("", v)])
             = if Js.typeof_object v then normalizeData v else v) /\
  (forall props,
      envelope props = false ->
      List.NoDup (map fst props) ->
      normalizeData (VObj props)
      = VObj (map_values normalizeData (List.filter stored props))) /\
  (forall props,
      envelope props = false ->
      List.NoDup (map fst props) ->
      ~ In "__proto__" (map fst props) ->
      normalizeData (VObj props) = VObj (map_values normalizeData props)) /\
  (forall v, Js.typeof_object v = false -> normalizeData v = v) /\
  normalize (VObj [("", VObj [("", VNum 5)])]) = VNum 5 /\
  normalize (VObj [("", VArr [VNum 1; VNum 2])]) = VArr [VNum 1; VNum 2] /\
  normalize (VObj [("a", VNum 1); ("b", VNum 2)]) = VObj [("a", VNum 1); ("b", VNum 2)].
Proof.
  split; [exact normalizeData_envelope|].
  split; [exact normalizeData_stored|].
  split; [exact normalizeData_rebuilt|].
  split; [exact normalizeData_primitive|].
  repeat split; reflexivity.
Qed.

End NormalizerFacts.

(** ** Concrete runs of the normalizer, with the reference codec *)

Definition text_item (s : string) : value := VObj [("text", VStr s)].

(** A result whose empty-key envelope hides a content item. *)
Definition wrapped_content : value :=
  VObj [("", VObj [("content", VArr [text_item "5"])])].

(** C3 fails as stated: normalizing [{"": {content: [{text: "5"}]}}]
    yields [{content: [{text: "5"}]}], and normalizing that yields [5]. *)
Lemma normalize_twice_differs :
  normalizeResponse Json.parse wrapped_content
    = VObj [("content", VArr [text_item "5"])] /\
  normalizeResponse Json.parse (normalizeResponse Json.parse wrapped_content)
    = VNum 5 /\
  normalizeResponse Json.parse (normalizeResponse Json.parse wrapped_content)
    <> normalizeResponse Json.parse wrapped_content.
Proof. repeat split. vm_compute. discriminate. Qed.

Example normalize_twice_differs_nested_text :
  let x := VObj [("content",
                  VArr [text_item (Json.text "{'content':[{'text':'[1,2]'}]}")])] in
  normalizeResponse Json.parse x
    = VObj [("content", VArr [text_item "[1,2]"])] /\
  normalizeResponse Json.parse (normalizeResponse Json.parse x)
    = VArr [VNum 1; VNum 2].
Proof. split; reflexivity. Qed.

Definition nested_envelopes : value :=
  VObj [("content",
         VArr [text_item (Json.text "{'': {'rows': [1, {'': 2}]}}")])].

Lemma normalize_idempotent_on_plain_witness :
  normalizeResponse Json.parse nested_envelopes
    = VObj [("rows", VArr [VNum 1; VNum 2])] /\
  normalizeResponse Json.parse (normalizeResponse Json.parse nested_envelopes)
    = normalizeResponse Json.parse nested_envelopes.
Proof.
  split; [reflexivity|].
  apply (proj2 (normalize_idempotent_on_plain Json.parse)).
  - reflexivity.
  - reflexivity.
  - intros parsed H. vm_compute in H. injection H as <-. split; reflexivity.
  - left. reflexivity.
Defined.



Lemma normalizeData_rebuilds_stored_keys_witness :
  normalizeData (VObj [("a", VObj [("", VNum 1)]); ("", VArr [VObj [("", VNull)]])])
  = VObj [("a", VNum 1); ("", VArr [VNull])].
Proof.
  rewrite (proj1 (proj2 (proj2 (normalizeData_rebuilds_stored_keys Json.parse)))).
  - reflexivity.
  - reflexivity.
  - apply nodup_keys_NoDup. reflexivity.
  - simpl. intros [H | [H | []]]; discriminate.
Defined.

(** C9 fails on an object with an own property named [__proto__], such as
    the decoded [{"__proto__":1,"a":2}]: the assignment
    [normalized[key] = ...] stores nothing under that key, so the rebuilt
    object is [{a: 2}] and has not the same keys.  With [{"__proto__":1,"":2}]
    what is left is an empty-key envelope, which a second pass unwraps. *)
Lemma normalizeData_drops_proto_key :
  Json.parse (Json.text "{'__proto__':1,'a':2}")
    = Some (VObj [("__proto__", VNum 1); ("a", VNum 2)]) /\
  normalizeData (VObj [("__proto__", VNum 1); ("a", VNum 2)]) = VObj [("a", VNum 2)] /\
  normalizeData (VObj [("__proto__", VNum 1); ("a", VNum 2)])
    <> VObj (map_values normalizeData [("__proto__", VNum 1); ("a", VNum 2)]) /\
  normalizeData (VObj [("__proto__", VNum 1); ("", VNum 2)]) = VObj [("", VNum 2)] /\
  normalizeData (normalizeData (VObj [("__proto__", VNum 1); ("", VNum 2)])) = VNum 2.
Proof. repeat split. vm_compute. discriminate. Qed.

(** ** The frame reader *)

Fixpoint no_newline (s : string) : bool :=
  match s with
  | EmptyString => true
  | String c r => negb (Ascii.eqb c "010") && no_newline r
  end.

(** The wire text of a list of frames: each followed by a newline. *)
Fixpoint frames_text (lines : list string) : string :=
  match lines with
  | [] => EmptyString
  | l :: rest => l +:+ newline +:+ frames_text rest
  end.

Fixpoint concat_chunks (chunks : list string) : string :=
  match chunks with
  | [] => EmptyString
  | c :: rest => c +:+ concat_chunks rest
  end.

Lemma append_cons (c : ascii) (s t : string) :
  String c s +:+ t = String c (s +:+ t).
Proof. reflexivity. Qed.

Lemma append_empty_l (s : string) : EmptyString +:+ s = s.
Proof. reflexivity. Qed.

Lemma append_empty_r (s : string) : s +:+ EmptyString = s.
Proof. induction s as [|c s IH]; [reflexivity | now rewrite append_cons, IH]. Qed.

Lemma append_assoc (s t u : string) : (s +:+ t) +:+ u = s +:+ (t +:+ u).
Proof. induction s as [|c s IH]; [reflexivity | now rewrite !append_cons, IH]. Qed.

Lemma split_lines_cons (c : ascii) (r : string) :
  split_lines (String c r) =
  if Ascii.eqb c "010" then EmptyString :: split_lines r
  else match split_lines r with
       | l :: ls => String c l :: ls
       | [] => [String c EmptyString]
       end.
Proof. reflexivity. Qed.

Lemma split_lines_no_newline (r : string) :
  no_newline r = true -> split_lines r = [r].
Proof.
  induction r as [|c r IH]; [reflexivity|].
  simpl no_newline. rewrite andb_true_iff, negb_true_iff. intros [Hc Hr].
  rewrite split_lines_cons, Hc, (IH Hr). reflexivity.
Qed.

Lemma split_lines_line (l rest : string) :
  no_newline l = true ->
  split_lines (l +:+ newline +:+ rest) = l :: split_lines rest.
Proof.
  induction l as [|c l IH].
  - intros _. reflexivity.
  - simpl no_newline. rewrite andb_true_iff, negb_true_iff. intros [Hc Hl].
    rewrite append_cons, split_lines_cons, Hc, (IH Hl). reflexivity.
Qed.

Lemma split_lines_frames (lines : list string) (r : string) :
  Forall (fun l => no_newline l = true) lines ->
  no_newline r = true ->
  split_lines (frames_text lines +:+ r) = lines ++ [r].
Proof.
  intros Hlines Hr. induction Hlines as [|l lines Hl _ IH].
  - simpl. now apply split_lines_no_newline.
  - simpl frames_text. rewrite !append_assoc, (split_lines_line _ _ Hl), IH.
    reflexivity.
Qed.

Lemma removelast_snoc {A : Type} (l : list A) (x : A) : removelast (l ++ [x]) = l.
Proof. apply removelast_last. Qed.

Lemma last_snoc {A : Type} (l : list A) (x d : A) : List.last (l ++ [x]) d = x.
Proof. apply last_last. Qed.

(** A text that is a run of complete frames followed by an unfinished one
    is read back as exactly those frames and that rest. *)
Lemma reader_unique (lines : list string) (r : string) :
  Forall (fun l => no_newline l = true) lines ->
  no_newline r = true ->
  complete_lines (frames_text lines +:+ r) = lines /\
  remainder (frames_text lines +:+ r) = r.
Proof.
  intros Hlines Hr. unfold complete_lines, remainder.
  rewrite (split_lines_frames _ _ Hlines Hr).
  split; [apply removelast_snoc | apply last_snoc].
Qed.

(** Every text is such a run, in one way. *)
Lemma reader_decomposes (s : string) :
  exists lines r,
    s = frames_text lines +:+ r /\
    Forall (fun l => no_newline l = true) lines /\
    no_newline r = true.
Proof.
  induction s as [|c s (lines & r & Hs & Hlines & Hr)].
  - exists [], EmptyString. split; [reflexivity|]. split; [constructor | reflexivity].
  - destruct (Ascii.eqb c "010") eqn:Hc.
    + apply Ascii.eqb_eq in Hc. subst c.
      exists (EmptyString :: lines), r. split; [|split].
      * simpl frames_text. rewrite Hs. reflexivity.
      * constructor; [reflexivity | exact Hlines].
      * exact Hr.
    + destruct lines as [|l lines].
      * exists [], (String c r). split; [|split].
        -- rewrite Hs. reflexivity.
        -- constructor.
        -- simpl. now rewrite Hc, Hr.
      * exists (String c l :: lines), r. split; [|split].
        -- rewrite Hs. reflexivity.
        -- inversion Hlines as [|? ? Hl Hrest]; subst. constructor; [|exact Hrest].
           simpl. now rewrite Hc.
        -- exact Hr.
Qed.

Lemma reader_sound (s : string) :
  s = frames_text (complete_lines s) +:+ remainder s /\
  Forall (fun l => no_newline l = true) (complete_lines s) /\
  no_newline (remainder s) = true.
Proof.
  destruct (reader_decomposes s) as (lines & r & Hs & Hlines & Hr).
  destruct (reader_unique lines r Hlines Hr) as [Hc Hrem].
  rewrite <- Hs in Hc, Hrem. rewrite Hc, Hrem. auto.
Qed.

Lemma frames_text_app (l1 l2 : list string) :
  frames_text (l1 ++ l2) = frames_text l1 +:+ frames_text l2.
Proof.
  induction l1 as [|l l1 IH]; simpl; [reflexivity|].
  now rewrite IH, !append_assoc.
Qed.

Lemma reader_append (a b : string) :
  complete_lines (a +:+ b) = complete_lines a ++ complete_lines (remainder a +:+ b) /\
  remainder (a +:+ b) = remainder (remainder a +:+ b).
Proof.
  destruct (reader_decomposes a) as (l1 & r1 & Ha & Hl1 & Hr1).
  destruct (reader_unique l1 r1 Hl1 Hr1) as [Hc1 Hrem1].
  subst a. rewrite Hc1, Hrem1.
  destruct (reader_decomposes (r1 +:+ b)) as (l2 & r2 & Hb & Hl2 & Hr2).
  destruct (reader_unique l2 r2 Hl2 Hr2) as [Hc2 Hrem2].
  rewrite <- Hb in Hc2, Hrem2. rewrite Hc2, Hrem2.
  rewrite append_assoc, Hb, <- append_assoc, <- frames_text_app.
  apply reader_unique; [|exact Hr2].
  apply Forall_app. split; assumption.
Qed.

(** ** The decoder and chunk boundaries *)

Lemma decode_app (d : Utf8.decoder) (a b : list byte) :
  Utf8.decode d (a ++ b) =
  let (out1, d1) := Utf8.decode d a in
  let (out2, d2) := Utf8.decode d1 b in
  (out1 +:+ out2, d2).
Proof.
  revert d. induction a as [|x a IH]; intros d.
  - simpl. now destruct (Utf8.decode d b).
  - simpl. destruct (Utf8.step d x) as [out d']. rewrite IH.
    destruct (Utf8.decode d' a) as [out1 d1].
    destruct (Utf8.decode d1 b) as [out2 d2].
    now rewrite append_assoc.
Qed.

(** A chunk that ends on a character boundary is decoded as it would be
    inside the whole stream. *)
Lemma toString_app (a b : list byte) :
  Utf8.whole a = true ->
  Utf8.toString (a ++ b) = Utf8.toString a +:+ Utf8.toString b.
Proof.
  unfold Utf8.toString, Utf8.whole. rewrite decode_app.
  destruct (Utf8.decode Utf8.Boundary a) as [out1 d1]. simpl snd.
  destruct d1; [|discriminate]. intros _.
  destruct (Utf8.decode Utf8.Boundary b) as [out2 d2].
  simpl Utf8.flush. now rewrite append_empty_r, append_assoc.
Qed.

Lemma toString_concat (chunks : list (list byte)) :
  Forall (fun data => Utf8.whole data = true) chunks ->
  concat_chunks (map Utf8.toString chunks) = Utf8.toString (List.concat chunks).
Proof.
  induction chunks as [|data chunks IH]; intros Hall; [reflexivity|].
  inversion Hall as [|? ? Hdata Hrest]; subst.
  simpl. rewrite toString_app by exact Hdata. now rewrite IH.
Qed.

Section Transport.

Variable JSON_parse : string -> option value.
Variable JSON_stringify : value -> string.

Local Abbreviation handle := (handle_line JSON_parse JSON_stringify).
Local Abbreviation receive := (on_data JSON_parse JSON_stringify).

(** The frames handed to the loop body, one after the other. *)
Definition deliver (lines : list string) (st : client) : client :=
  fold_left handle lines st.

(** The [data] listener run on a sequence of chunks. *)
Definition feed (chunks : list string) (st : client) : client :=
  fold_left (fun st chunk => receive chunk st) chunks st.

Lemma handle_set_buffer (b : string) (st : client) (line : string) :
  handle (set_buffer b st) line = set_buffer b (handle st line).
Proof.
  unfold handle_line.
  destruct (is_blank line); [reflexivity|].
  destruct (JSON_parse line) as [response|]; [|reflexivity].
  destruct (Js.nullish response); [reflexivity|].
  unfold get_pending. simpl.
  destruct (Js.get_prop response "id"); try reflexivity.
  destruct (pendingRequests st !! n); [|reflexivity].
  destruct (Js.truthy (Js.get_prop response "error")); reflexivity.
Qed.

Lemma deliver_set_buffer (b : string) (lines : list string) (st : client) :
  deliver lines (set_buffer b st) = set_buffer b (deliver lines st).
Proof.
  revert st. induction lines as [|l lines IH]; intros st; [reflexivity|].
  unfold deliver in *. simpl. rewrite handle_set_buffer. apply IH.
Qed.

Lemma deliver_app (l1 l2 : list string) (st : client) :
  deliver (l1 ++ l2) st = deliver l2 (deliver l1 st).
Proof. unfold deliver. apply fold_left_app. Qed.

Lemma set_buffer_twice (b b' : string) (st : client) :
  set_buffer b' (set_buffer b st) = set_buffer b' st.
Proof. reflexivity. Qed.

Lemma buffer_set_buffer (b : string) (st : client) : buffer (set_buffer b st) = b.
Proof. reflexivity. Qed.

Lemma buffer_deliver (lines : list string) (st : client) :
  buffer (deliver lines st) = buffer st.
Proof.
  rewrite <- (buffer_set_buffer (buffer st) (deliver lines st)).
  rewrite <- deliver_set_buffer.
  destruct st; reflexivity.
Qed.

Lemma set_buffer_same (st : client) : set_buffer (buffer st) st = st.
Proof. destruct st; reflexivity. Qed.

Lemma receive_frames (chunk : string) (st : client) :
  receive chunk st =
  deliver (complete_lines (buffer st +:+ chunk))
    (set_buffer (remainder (buffer st +:+ chunk)) st).
Proof. reflexivity. Qed.

Lemma reader_idle (buf : string) :
  no_newline buf = true -> complete_lines buf = [] /\ remainder buf = buf.
Proof.
  intros Hbuf. unfold complete_lines, remainder.
  rewrite (split_lines_no_newline _ Hbuf). split; reflexivity.
Qed.

Lemma buffer_receive (chunk : string) (st : client) :
  buffer (receive chunk st) = remainder (buffer st +:+ chunk).
Proof. rewrite receive_frames, buffer_deliver. reflexivity. Qed.

Lemma feed_frames (chunks : list string) (st : client) :
  no_newline (buffer st) = true ->
  feed chunks st =
  deliver (complete_lines (buffer st +:+ concat_chunks chunks))
    (set_buffer (remainder (buffer st +:+ concat_chunks chunks)) st).
Proof.
  revert st. induction chunks as [|chunk chunks IH]; intros st Hbuf.
  - simpl concat_chunks. rewrite append_empty_r.
    destruct (reader_idle _ Hbuf) as [-> ->].
    now rewrite set_buffer_same.
  - change (feed (chunk :: chunks) st) with (feed chunks (receive chunk st)).
    rewrite IH.
    + rewrite buffer_receive. simpl concat_chunks.
      rewrite <- append_assoc.
      destruct (reader_append (buffer st +:+ chunk) (concat_chunks chunks)) as [-> ->].
      rewrite deliver_app, receive_frames.
      rewrite <- !deliver_set_buffer, set_buffer_twice. reflexivity.
    + rewrite buffer_receive. apply reader_sound.
Qed.

Lemma reader_whole_frames (lines : list string) :
  Forall (fun l => no_newline l = true) lines ->
  complete_lines (frames_text lines) = lines /\
  remainder (frames_text lines) = EmptyString.
Proof.
  intros Hlines. rewrite <- (append_empty_r (frames_text lines)).
  now apply reader_unique.
Qed.

Lemma frames_text_one (line : string) :
  frames_text [line] = line +:+ newline.
Proof. simpl. now rewrite append_empty_r. Qed.

Lemma frames_text_two (line1 line2 : string) :
  frames_text [line1; line2] = line1 +:+ newline +:+ line2 +:+ newline.
Proof. simpl. now rewrite append_empty_r. Qed.

(** The [data] listener run on a sequence of chunks of bytes. *)
Definition feed_bytes (chunks : list (list byte)) (st : client) : client :=
  fold_left (fun st data => on_stdout JSON_parse JSON_stringify data st) chunks st.

Lemma feed_bytes_text (chunks : list (list byte)) (st : client) :
  feed_bytes chunks st = feed (map Utf8.toString chunks) st.
Proof.
  revert st. induction chunks as [|data chunks IH]; intros st; [reflexivity|].
  simpl. apply IH.
Qed.

(** X23: whatever the chunking, the reader hands to the loop body, once
    and in order, the complete newline-terminated segments of the
    accumulated text, which is the text of the chunks, each decoded on its
    own, and keeps the unfinished last segment as the new accumulator.
    When the chunks end on character boundaries that text is the decoded
    stream: a frame split between two characters is handled once, as the
    frame that was sent, and two frames in one chunk are handled one after
    the other. *)
Theorem chunks_cut_between_characters_reassemble :
  (forall chunks st,
      no_newline (buffer st) = true ->
      let wire := buffer st +:+ concat_chunks (map Utf8.toString chunks) in
      feed_bytes chunks st = deliver (complete_lines wire) (set_buffer (remainder wire) st) /\
      buffer (feed_bytes chunks st) = remainder wire /\
      wire = frames_text (complete_lines wire) +:+ remainder wire /\
      Forall (fun l => no_newline l = true) (complete_lines wire) /\
      no_newline (remainder wire) = true) /\
  (forall chunks,
      Forall (fun data => Utf8.whole data = true) chunks ->
      concat_chunks (map Utf8.toString chunks) = Utf8.toString (List.concat chunks)) /\
  (forall st head tail line,
      buffer st = EmptyString ->
      no_newline line = true ->
      Utf8.whole head = true ->
      Utf8.toString (head ++ tail) = line +:+ newline ->
      feed_bytes [head; tail] st = handle st line) /\
  (forall st data line1 line2,
      buffer st = EmptyString ->
      no_newline line1 = true ->
      no_newline line2 = true ->
      Utf8.toString data = line1 +:+ newline +:+ line2 +:+ newline ->
      feed_bytes [data] st = handle (handle st line1) line2).
Proof.
  split; [|split; [exact toString_concat|split]].
  - intros chunks st Hbuf wire. rewrite feed_bytes_text. split; [|split].
    + now apply feed_frames.
    + rewrite feed_frames by exact Hbuf. rewrite buffer_deliver. reflexivity.
    + apply reader_sound.
  - intros st head tail line Hbuf Hline Hwhole Hsplit.
    rewrite feed_bytes_text, feed_frames by now rewrite Hbuf.
    rewrite Hbuf, append_empty_l. simpl map. simpl concat_chunks.
    rewrite append_empty_r, <- toString_app by exact Hwhole.
    rewrite Hsplit, <- frames_text_one.
    destruct (reader_whole_frames [line]) as [-> ->]; [now constructor|].
    rewrite <- Hbuf, set_buffer_same. reflexivity.
  - intros st data line1 line2 Hbuf H1 H2 Hdata.
    rewrite feed_bytes_text, feed_frames by now rewrite Hbuf.
    rewrite Hbuf, append_empty_l. simpl map. simpl concat_chunks.
    rewrite append_empty_r, Hdata, <- frames_text_two.
    destruct (reader_whole_frames [line1; line2]) as [-> ->];
      [now repeat constructor|].
    rewrite <- Hbuf, set_buffer_same. reflexivity.
Qed.

(** ** The correlator *)

Definition settled_ids (st : client) : list Z := map fst (settled st).

(** What holds of a started client between two events. *)
Record consistent (st : client) : Prop := {
  started : process st <> None;
  table_own : forall id p, pendingRequests st !! id = Some p -> call p = id;
  table_bound : forall id p, pendingRequests st !! id = Some p -> id <= requestId st;
  table_unsettled : forall id p, pendingRequests st !! id = Some p -> ~ In id (settled_ids st);
  settled_bound : forall c, In c (settled_ids st) -> c <= requestId st;
  settled_once : List.NoDup (settled_ids st);
  timers_live : forall id m, timers st !! id = Some m ->
                             In id (settled_ids st) \/ pendingRequests st !! id = Some (mkPending id)
}.

Lemma settled_ids_settle (c : Z) (o : outcome) (st : client) :
  settled_ids (settle c o st) = settled_ids st ++ [c].
Proof. unfold settled_ids, settle. simpl. now rewrite map_app. Qed.

Lemma NoDup_snoc (l : list Z) (c : Z) :
  List.NoDup l -> ~ In c l -> List.NoDup (l ++ [c]).
Proof.
  intros Hnd Hc. induction Hnd as [|x l Hx Hnd IH]; simpl.
  - constructor; [intros [] | constructor].
  - constructor.
    + rewrite in_app_iff. intros [H | [H | []]]; [contradiction|].
      subst. apply Hc. now left.
    + apply IH. intros H. apply Hc. now right.
Qed.

Lemma first_outcome_None (c : Z) (log : list (Z * outcome)) :
  first_outcome c log = None <-> ~ In c (map fst log).
Proof.
  induction log as [|[c' o] log IH]; simpl.
  - split; [intros _ [] | reflexivity].
  - destruct (Z.eqb_spec c c') as [->|Hne].
    + split; [discriminate | intros H; exfalso; apply H; now left].
    + rewrite IH. split.
      * intros H [Heq | Hin]; [congruence | contradiction].
      * intros H Hin. apply H. now right.
Qed.

Lemma first_outcome_app_l (c : Z) (log more : list (Z * outcome)) :
  ~ In c (map fst more) ->
  first_outcome c (log ++ more) = first_outcome c log.
Proof.
  intros Hmore. induction log as [|[c' o] log IH]; simpl.
  - now apply first_outcome_None.
  - destruct (Z.eqb c c'); [reflexivity | exact IH].
Qed.

Lemma first_outcome_app_r (c : Z) (log more : list (Z * outcome)) :
  ~ In c (map fst log) ->
  first_outcome c (log ++ more) = first_outcome c more.
Proof.
  induction log as [|[c' o] log IH]; simpl; intros Hlog; [reflexivity|].
  destruct (Z.eqb_spec c c') as [->|Hne].
  - exfalso. apply Hlog. now left.
  - apply IH. intros H. apply Hlog. now right.
Qed.

(** Taking the entry [id] out of the table and settling its call. *)
Lemma consistent_take (st : client) (id : Z) (p : pending) (o : outcome) :
  consistent st ->
  pendingRequests st !! id = Some p ->
  consistent (settle (call p) o (set_pending (delete id (pendingRequests st)) st)).
Proof.
  intros [Hst Hown Hbound Hunset Hsb Honce Hlive] Hp.
  rewrite (Hown _ _ Hp).
  split; rewrite ?settled_ids_settle; simpl.
  - exact Hst.
  - intros k q Hk. apply lookup_delete_Some in Hk as [_ Hk]. eauto.
  - intros k q Hk. apply lookup_delete_Some in Hk as [_ Hk]. eauto.
  - intros k q Hk. apply lookup_delete_Some in Hk as [Hne Hk].
    rewrite in_app_iff. intros [H | [H | []]].
    + now apply (Hunset _ _ Hk).
    + congruence.
  - intros c. rewrite in_app_iff. intros [H | [H | []]].
    + now apply Hsb.
    + subst. eauto.
  - apply NoDup_snoc; [exact Honce | eauto].
  - intros k m Hk. rewrite in_app_iff.
    destruct (Hlive _ _ Hk) as [H | H]; [now left; left|].
    destruct (Z.eq_dec k id) as [->|Hne].
    + left. right. now left.
    + right. rewrite lookup_delete_ne by congruence. exact H.
Qed.

Lemma consistent_set_buffer (b : string) (st : client) :
  consistent st -> consistent (set_buffer b st).
Proof. intros [? ? ? ? ? ? ?]. split; assumption. Qed.

Lemma consistent_handle (st : client) (line : string) :
  consistent st -> consistent (handle st line).
Proof.
  intros Hst. unfold handle_line.
  destruct (is_blank line); [exact Hst|].
  destruct (JSON_parse line) as [response|]; [|exact Hst].
  destruct (Js.nullish response); [exact Hst|].
  unfold get_pending.
  destruct (Js.get_prop response "id"); try exact Hst.
  destruct (pendingRequests st !! n) as [p|] eqn:Hp; [|exact Hst].
  destruct (Js.truthy (Js.get_prop response "error")); now apply consistent_take.
Qed.

Lemma consistent_deliver (lines : list string) (st : client) :
  consistent st -> consistent (deliver lines st).
Proof.
  revert st. induction lines as [|l lines IH]; intros st Hst; [exact Hst|].
  apply IH. now apply consistent_handle.
Qed.

Lemma consistent_receive (chunk : string) (st : client) :
  consistent st -> consistent (receive chunk st).
Proof.
  intros Hst. rewrite receive_frames.
  now apply consistent_deliver, consistent_set_buffer.
Qed.

Local Abbreviation send := (request JSON_stringify).
Local Abbreviation next := (step JSON_parse JSON_stringify).
Local Abbreviation play := (run JSON_parse JSON_stringify).

Lemma consistent_set_timers (t : gmap Z string) (st : client) :
  consistent st ->
  (forall id m, t !! id = Some m -> timers st !! id = Some m) ->
  consistent (set_timers t st).
Proof.
  intros [? ? ? ? ? ? Hlive] Hsub. split; try assumption.
  intros id m Hid. apply (Hlive id m). now apply Hsub.
Qed.

Lemma consistent_on_timeout (id : Z) (method : string) (st : client) :
  consistent st -> consistent (on_timeout id method st).
Proof.
  intros Hst. unfold on_timeout.
  destruct (pendingRequests st !! id) as [p|] eqn:Hp; [|exact Hst].
  rewrite <- (table_own st Hst _ _ Hp) at 1.
  now apply consistent_take.
Qed.

Lemma consistent_send (method : string) (params : value) (st : client) :
  consistent st -> consistent (snd (send method params st)).
Proof.
  intros [Hst Hown Hbound Hunset Hsb Honce Hlive]. unfold request.
  destruct (process st) as [w|] eqn:Hw; [|contradiction].
  simpl. split; simpl.
  - discriminate.
  - intros k q Hk. apply lookup_insert_Some in Hk as [[<- <-] | [_ Hk]]; eauto.
  - intros k q Hk. apply lookup_insert_Some in Hk as [[<- <-] | [_ Hk]]; [lia|].
    specialize (Hbound _ _ Hk). lia.
  - intros k q Hk. apply lookup_insert_Some in Hk as [[<- <-] | [_ Hk]]; [|eauto].
    intros Hin. specialize (Hsb _ Hin). lia.
  - intros c Hin. specialize (Hsb _ Hin). lia.
  - exact Honce.
  - intros k m Hk. apply lookup_insert_Some in Hk as [[<- <-] | [Hne Hk]].
    + right. apply lookup_insert_eq.
    + destruct (Hlive _ _ Hk) as [H | H]; [now left | right].
      rewrite lookup_insert_ne by exact Hne. exact H.
Qed.

Lemma consistent_step (st : client) (e : event) :
  consistent st -> consistent (next st e).
Proof.
  intros Hst. destruct e as [method params | chunk | id]; simpl.
  - now apply consistent_send.
  - destruct (process st) as [w|]; [|exact Hst].
    destruct (listening w); [now apply consistent_receive | exact Hst].
  - destruct (timers st !! id) as [method|] eqn:Ht; [|exact Hst].
    apply consistent_on_timeout, consistent_set_timers; [exact Hst|].
    intros k m Hk. now apply lookup_delete_Some in Hk as [_ Hk].
Qed.

Lemma consistent_run (evs : list event) (st : client) :
  consistent st -> consistent (play evs st).
Proof.
  revert st. induction evs as [|e evs IH]; intros st Hst; [exact Hst|].
  apply IH. now apply consistent_step.
Qed.

(** A frame whose [id] is not in the table changes nothing. *)
Lemma handle_unmatched (st : client) (line : string) (response : value) :
  JSON_parse line = Some response ->
  get_pending (Js.get_prop response "id") st = None ->
  handle st line = st.
Proof.
  intros Hparse Hid. unfold handle_line. rewrite Hparse, Hid.
  destruct (is_blank line); [reflexivity|].
  now destruct (Js.nullish response).
Qed.

Lemma timeout_clears (st : client) (id : Z) :
  pendingRequests (next st (Timeout id)) !! id = None \/
  timers st !! id = None.
Proof.
  simpl. destruct (timers st !! id) as [method|]; [left | now right].
  unfold on_timeout. simpl.
  destruct (pendingRequests st !! id) eqn:Hp; simpl.
  - apply lookup_delete_eq.
  - exact Hp.
Qed.

(** C6: along any interleaving of sends, incoming chunks and timer
    firings on a started client, every table entry belongs to the still
    unsettled call of its own id, a new request takes a key the table does
    not hold, [resolve] or [reject] is invoked at most once per call, and a
    response whose id is absent from the table (its call timed out) is
    ignored: the state does not change. *)
Theorem correlator_settles_once (st : client) (evs : list event) :
  consistent st ->
  (forall id p, pendingRequests (play evs st) !! id = Some p ->
                call p = id /\ promise_state (play evs st) id = None) /\
  pendingRequests (play evs st) !! (requestId (play evs st) + 1) = None /\
  List.NoDup (settled_ids (play evs st)) /\
  (forall id line response,
      timers (play evs st) !! id <> None ->
      JSON_parse line = Some response ->
      Js.get_prop response "id" = VNum id ->
      let timed_out := next (play evs st) (Timeout id) in
      pendingRequests timed_out !! id = None /\
      handle timed_out line = timed_out).
Proof.
  intros Hst. pose proof (consistent_run evs st Hst) as Hrun.
  split; [|split; [|split]].
  - intros id p Hp. split; [exact (table_own _ Hrun _ _ Hp)|].
    apply first_outcome_None. exact (table_unsettled _ Hrun _ _ Hp).
  - destruct (pendingRequests (play evs st) !! (requestId (play evs st) + 1))
      as [p|] eqn:Hp; [|reflexivity].
    pose proof (table_bound _ Hrun _ _ Hp). lia.
  - exact (settled_once _ Hrun).
  - intros id line response Htimer Hparse Hid timed_out.
    assert (Hgone : pendingRequests timed_out !! id = None).
    { destruct (timeout_clears (play evs st) id); [assumption | contradiction]. }
    split; [exact Hgone|].
    apply (handle_unmatched _ _ response Hparse).
    rewrite Hid. unfold get_pending. now rewrite Hgone.
Qed.

(** ** Timers *)

Lemma handle_keeps (st : client) (line : string) :
  process (handle st line) = process st /\
  requestId (handle st line) = requestId st /\
  timers (handle st line) = timers st.
Proof.
  unfold handle_line.
  destruct (is_blank line); [auto|].
  destruct (JSON_parse line) as [response|]; [|auto].
  destruct (Js.nullish response); [auto|].
  destruct (get_pending (Js.get_prop response "id") st) as [[id p]|]; [|auto].
  destruct (Js.truthy (Js.get_prop response "error")); auto.
Qed.

Lemma deliver_keeps (lines : list string) (st : client) :
  process (deliver lines st) = process st /\
  requestId (deliver lines st) = requestId st /\
  timers (deliver lines st) = timers st.
Proof.
  revert st. induction lines as [|l lines IH]; intros st; [auto|].
  destruct (IH (handle st l)) as (Hp & Hr & Ht).
  destruct (handle_keeps st l) as (Hp' & Hr' & Ht').
  unfold deliver in *. simpl. rewrite Hp, Hr, Ht. auto.
Qed.

Lemma receive_keeps (chunk : string) (st : client) :
  process (receive chunk st) = process st /\
  requestId (receive chunk st) = requestId st /\
  timers (receive chunk st) = timers st.
Proof.
  rewrite receive_frames.
  apply (deliver_keeps _ (set_buffer (remainder (buffer st +:+ chunk)) st)).
Qed.

Lemma on_timeout_keeps (id : Z) (method : string) (st : client) :
  requestId (on_timeout id method st) = requestId st /\
  timers (on_timeout id method st) = timers st.
Proof. unfold on_timeout. destruct (pendingRequests st !! id); auto. Qed.

Lemma requestId_step (st : client) (e : event) :
  requestId st <= requestId (next st e).
Proof.
  destruct e as [method params | chunk | id]; simpl.
  - unfold request. destruct (process st); simpl; lia.
  - destruct (process st) as [w|]; [|lia].
    destruct (listening w); [|lia].
    destruct (receive_keeps chunk st) as (_ & -> & _). lia.
  - destruct (timers st !! id) as [method|]; [|lia].
    destruct (on_timeout_keeps id method (set_timers (delete id (timers st)) st))
      as [-> _]. simpl. lia.
Qed.

Lemma timer_step (st : client) (e : event) (id : Z) :
  id <= requestId st ->
  e <> Timeout id ->
  timers (next st e) !! id = timers st !! id.
Proof.
  intros Hid He. destruct e as [method params | chunk | id']; simpl.
  - unfold request. destruct (process st); simpl; [|reflexivity].
    apply lookup_insert_ne. lia.
  - destruct (process st) as [w|]; [|reflexivity].
    destruct (listening w); [|reflexivity].
    now destruct (receive_keeps chunk st) as (_ & _ & ->).
  - destruct (timers st !! id') as [method|] eqn:Ht; [|reflexivity].
    destruct (on_timeout_keeps id' method (set_timers (delete id' (timers st)) st))
      as [_ ->]. simpl.
    apply lookup_delete_ne. congruence.
Qed.

Lemma timer_run (evs : list event) (st : client) (id : Z) :
  id <= requestId st ->
  ~ In (Timeout id) evs ->
  timers (play evs st) !! id = timers st !! id.
Proof.
  revert st. induction evs as [|e evs IH]; intros st Hid Hev; [reflexivity|].
  change (play (e :: evs) st) with (play evs (next st e)).
  rewrite IH.
  - apply timer_step; [exact Hid|]. intros ->. apply Hev. now left.
  - pose proof (requestId_step st e). lia.
  - intros H. apply Hev. now right.
Qed.


(** ** Correlation by id *)









Local Abbreviation send_each := (send_all JSON_parse JSON_stringify).




(** ** Teardown *)

Lemma stop_state (st : client) (w : worker) :
  process st = Some w ->
  pendingRequests (stop st) = ∅ /\
  settled (stop st) = settled st /\
  requestId (stop st) = requestId st /\
  process (stop st)
  = Some {| stdin := stdin w; listening := false; signals := signals w ++ [SIGTERM] |}.
Proof. intros Hw. unfold stop. rewrite Hw. repeat split. Qed.

(** What holds after [stop]: nobody listens, and whatever is in the table
    was stored by a later call. *)
Definition stopped_after (bound : Z) (log : list (Z * outcome)) (st : client) : Prop :=
  (forall w, process st = Some w -> listening w = false) /\
  bound <= requestId st /\
  (forall id p, pendingRequests st !! id = Some p -> bound < id) /\
  (forall c, c <= bound -> first_outcome c (settled st) = first_outcome c log).

Lemma stopped_step (bound : Z) (log : list (Z * outcome)) (st : client) (e : event) :
  stopped_after bound log st -> stopped_after bound log (next st e).
Proof.
  intros (Hdeaf & Hbound & Hlate & Hlog).
  destruct e as [method params | chunk | id]; simpl.
  - unfold request. destruct (process st) as [w|] eqn:Hw.
    + split; [|split; [|split]]; simpl.
      * intros w' Hw'. injection Hw' as <-. simpl. now apply Hdeaf.
      * lia.
      * intros k q Hk. apply lookup_insert_Some in Hk as [[<- _] | [_ Hk]]; [lia|eauto].
      * exact Hlog.
    + split; [|split; [|split]]; simpl.
      * discriminate.
      * lia.
      * intros k q Hk. apply lookup_insert_Some in Hk as [[<- _] | [_ Hk]]; [lia|eauto].
      * intros c Hc. rewrite first_outcome_app_l; [now apply Hlog|].
        simpl. intros [H | []]. lia.
  - destruct (process st) as [w|] eqn:Hw.
    + rewrite (Hdeaf w eq_refl). split; [|split; [|split]]; try assumption.
      intros w' Hw'. rewrite Hw in Hw'. injection Hw' as <-. now apply Hdeaf.
    + split; [|split; [|split]]; try assumption.
      intros w' Hw'. congruence.
  - destruct (timers st !! id) as [method|]; [|now repeat split].
    unfold on_timeout. simpl.
    destruct (pendingRequests st !! id) as [p|] eqn:Hp.
    + split; [|split; [|split]]; simpl.
      * exact Hdeaf.
      * exact Hbound.
      * intros k q Hk. apply lookup_delete_Some in Hk as [_ Hk]. eauto.
      * intros c Hc. rewrite first_outcome_app_l; [now apply Hlog|].
        simpl. intros [H | []]. specialize (Hlate _ _ Hp). lia.
    + split; [|split; [|split]]; simpl; assumption.
Qed.

Lemma stopped_run (bound : Z) (log : list (Z * outcome)) (evs : list event) (st : client) :
  stopped_after bound log st -> stopped_after bound log (play evs st).
Proof.
  revert st. induction evs as [|e evs IH]; intros st Hst; [exact Hst|].
  apply IH. now apply stopped_step.
Qed.

(** C2, as amended: [stop] empties the pending table, detaches the
    listeners and sends SIGTERM without invoking [resolve] or [reject] of
    any entry; a call that was unsettled when [stop] ran stays unsettled
    whatever happens next (its timer finds no entry, no chunk is read). *)
Theorem stop_clears_without_settling (st : client) (w : worker) :
  process st = Some w ->
  pendingRequests (stop st) = ∅ /\
  settled (stop st) = settled st /\
  (exists w', process (stop st) = Some w' /\ listening w' = false /\
              signals w' = signals w ++ [SIGTERM]) /\
  (forall evs c,
      c <= requestId st ->
      promise_state st c = None ->
      promise_state (play evs (stop st)) c = None /\
      promise_state (stop_finish (play evs (stop st))) c = None).
Proof.
  intros Hw. destruct (stop_state st w Hw) as (Hp & Hs & Hr & Hproc).
  split; [exact Hp|]. split; [exact Hs|]. split.
  - eexists. split; [exact Hproc|]. split; reflexivity.
  - intros evs c Hc Hnone.
    assert (Hafter : stopped_after (requestId st) (settled st) (play evs (stop st))).
    { apply stopped_run. split; [|split; [|split]].
      - intros w' Hw'. rewrite Hproc in Hw'. now injection Hw' as <-.
      - rewrite Hr. lia.
      - intros id p Hid. rewrite Hp in Hid. now rewrite lookup_empty in Hid.
      - intros k _. now rewrite Hs. }
    destruct Hafter as (_ & _ & _ & Hlog).
    unfold promise_state in *. simpl. rewrite (Hlog c Hc). auto.
Qed.

(** ** Handshake *)

(** C7, as amended: [start] spawns the worker and writes the [initialize]
    request as its first frame; the rest of the handshake waits for that
    request: nothing is written while it is unanswered, the [initialized]
    notification is written once it is resolved, and no notification is
    written when it is rejected.  [callTool] does not look at the
    handshake: on a client with a process handle it writes the
    [tools/call] request for the named tool to the worker at once, stores
    its entry, arms its timer and rejects nothing; only a client without a
    process handle rejects the call. *)
Theorem callTool_ignores_handshake :
  (forall st,
      let init := fst (start JSON_stringify st) in
      let st' := snd (start JSON_stringify st) in
      process st'
      = Some {| stdin := [request_frame JSON_stringify init "initialize" initialize_params];
                listening := true; signals := [] |} /\
      pendingRequests st' !! init = Some (mkPending init) /\
      settled st' = settled st) /\
  (forall st id,
      promise_state st id = None ->
      initialize_resume JSON_stringify id st = None) /\
  (forall st id result w,
      promise_state st id = Some (Resolved result) ->
      process st = Some w ->
      initialize_resume JSON_stringify id st
      = Some (Completed
                (set_process
                   (Some (write (notification_frame JSON_stringify
                                   "notifications/initialized" (VObj [])) w)) st))) /\
  (forall st id e,
      promise_state st id = Some (Rejected e) ->
      initialize_resume JSON_stringify id st = Some (Failed e)) /\
  (forall st w name args,
      process st = Some w ->
      let id := fst (callTool JSON_stringify name args st) in
      let st' := snd (callTool JSON_stringify name args st) in
      id = requestId st + 1 /\
      process st'
      = Some (write
                (request_frame JSON_stringify id "tools/call"
                   (VObj [("name", VStr name);
                          ("arguments",
                           match args with VUndefined => VObj [] | _ => args end)]))
                w) /\
      pendingRequests st' !! id = Some (mkPending id) /\
      timers st' !! id = Some "tools/call" /\
      settled st' = settled st) /\
  (forall st name args,
      process st = None ->
      let id := fst (callTool JSON_stringify name args st) in
      let st' := snd (callTool JSON_stringify name args st) in
      process st' = None /\
      settled st' = settled st ++ [(id, Rejected TypeError)]).
Proof.
  split; [|split; [|split; [|split; [|split]]]].
  - intros st init st'. unfold st', init, start, request. simpl.
    split; [reflexivity|]. split; [apply lookup_insert_eq | reflexivity].
  - intros st id Hnone. unfold initialize_resume. now rewrite Hnone.
  - intros st id result w Hres Hw. unfold initialize_resume, notify.
    now rewrite Hres, Hw.
  - intros st id e Hrej. unfold initialize_resume. now rewrite Hrej.
  - intros st w name args Hw id st'. unfold st', id, callTool, request.
    rewrite Hw. simpl.
    split; [reflexivity|]. split; [reflexivity|].
    split; [apply lookup_insert_eq|]. split; [apply lookup_insert_eq | reflexivity].
  - intros st name args Hw id st'. unfold st', id, callTool, request.
    rewrite Hw. simpl. split; reflexivity.
Qed.

End Transport.

(** ** Concrete runs of the client, with the reference codec *)

Definition handshaking : client := snd (start Json.stringify new_client).

Definition init_response : string :=
  Json.text "{'jsonrpc':'2.0','id':1,'result':{'protocolVersion':'2024-11-05','capabilities':{}}}"
  +:+ newline.

(** The client once the [initialize] response has come in. *)
Definition ready : client :=
  run Json.parse Json.stringify [Data init_response] handshaking.

Definition three_calls : list (string * value) :=
  [("tools/call", VObj [("name", VStr "list_pages"); ("arguments", VObj [])]);
   ("tools/call", VObj [("name", VStr "click");
                        ("arguments", VObj [("uid", VStr "1_2")])]);
   ("tools/list", VObj [])].

(** Three calls in flight: ids 2, 3 and 4. *)
Definition busy : client := send_all Json.parse Json.stringify three_calls ready.

Definition early_call : client :=
  snd (callTool Json.stringify "navigate_page"
         (VObj [("url", VStr "https://example.com")]) handshaking).

Lemma consistent_handshaking : consistent handshaking.
Proof.
  unfold handshaking, start, request. simpl. split; simpl.
  - discriminate.
  - intros id p H. apply lookup_insert_Some in H as [[<- <-] | [_ H]]; [reflexivity|].
    now rewrite lookup_empty in H.
  - intros id p H. apply lookup_insert_Some in H as [[<- <-] | [_ H]]; [lia|].
    now rewrite lookup_empty in H.
  - intros id p _ [].
  - intros c [].
  - constructor.
  - intros id m H. right.
    apply lookup_insert_Some in H as [[<- <-] | [_ H]]; [apply lookup_insert_eq|].
    now rewrite lookup_empty in H.
Qed.

Lemma consistent_ready : consistent ready.
Proof. apply consistent_run, consistent_handshaking. Qed.

Lemma consistent_busy : consistent busy.
Proof. apply consistent_run, consistent_ready. Qed.

(** C7 fails as stated: a [callTool] made while the [initialize] request
    is still unanswered is written to the worker right behind it and is not
    rejected. *)
Lemma callTool_during_handshake :
  promise_state handshaking 1 = None /\
  option_map stdin (process early_call)
  = Some [Json.text "{'jsonrpc':'2.0','id':1,'method':'initialize','params':{'protocolVersion':'2024-11-05','capabilities':{},'clientInfo':{'name':'mcp-code-wrapper-executor','version':'1.0.0'}}}"
            +:+ newline;
          Json.text "{'jsonrpc':'2.0','id':2,'method':'tools/call','params':{'name':'navigate_page','arguments':{'url':'https://example.com'}}}"
            +:+ newline] /\
  pendingRequests early_call !! 2 = Some (mkPending 2) /\
  promise_state early_call 1 = None /\
  promise_state early_call 2 = None.
Proof. repeat split; vm_compute; reflexivity. Qed.

Lemma callTool_ignores_handshake_witness :
  process early_call
  = Some {| stdin :=
              [request_frame Json.stringify 1 "initialize" initialize_params;
               request_frame Json.stringify 2 "tools/call"
                 (VObj [("name", VStr "navigate_page");
                        ("arguments", VObj [("url", VStr "https://example.com")])])];
            listening := true; signals := [] |} /\
  settled early_call = [] /\
  pendingRequests early_call !! 2 = Some (mkPending 2).
Proof.
  destruct (proj1 (proj2 (proj2 (proj2 (proj2 (callTool_ignores_handshake Json.stringify)))))
              handshaking
              {| stdin := [request_frame Json.stringify 1 "initialize" initialize_params];
                 listening := true; signals := [] |}
              "navigate_page" (VObj [("url", VStr "https://example.com")]) eq_refl)
    as (_ & Hproc & Hentry & _ & Hlog).
  split; [exact Hproc|]. split; [exact Hlog | exact Hentry].
Defined.

(** C2 fails as stated: with the calls 2, 3 and 4 pending, [stop] invokes
    no [reject]; the three promises are unsettled after it and stay so
    when their timers fire and when the process handle is dropped. *)
Lemma stop_leaves_calls_unsettled :
  pendingRequests busy !! 2 = Some (mkPending 2) /\
  pendingRequests busy !! 3 = Some (mkPending 3) /\
  pendingRequests busy !! 4 = Some (mkPending 4) /\
  settled (stop busy) = settled busy /\
  (forall c, In c [2; 3; 4] ->
     promise_state (stop busy) c = None /\
     promise_state
       (stop_finish
          (run Json.parse Json.stringify [Timeout 2; Timeout 3; Timeout 4] (stop busy))) c
     = None).
Proof.
  repeat split; try (vm_compute; reflexivity);
    destruct H as [<- | [<- | [<- | []]]]; vm_compute; reflexivity.
Qed.

Lemma stop_clears_without_settling_witness :
  pendingRequests (stop busy) = ∅ /\
  promise_state
    (run Json.parse Json.stringify [Timeout 3; Data init_response] (stop busy)) 3 = None.
Proof.
  destruct (process busy) as [w|] eqn:Hw; [|discriminate Hw].
  destruct (stop_clears_without_settling Json.parse Json.stringify busy w Hw)
    as (Hclear & _ & _ & Hnever).
  split; [exact Hclear|].
  apply (Hnever [Timeout 3; Data init_response] 3).
  - vm_compute. discriminate.
  - reflexivity.
Defined.

Definition late_frame : string :=
  Json.text "{'jsonrpc':'2.0','id':2,'result':{'content':[]}}".


Lemma correlator_settles_once_witness :
  List.NoDup
    (settled_ids
       (run Json.parse Json.stringify
          [Timeout 2; Data (late_frame +:+ newline); Timeout 3] busy)) /\
  handle_line Json.parse Json.stringify
    (step Json.parse Json.stringify busy (Timeout 2)) late_frame
  = step Json.parse Json.stringify busy (Timeout 2).
Proof.
  split.
  - apply (correlator_settles_once Json.parse Json.stringify busy
             [Timeout 2; Data (late_frame +:+ newline); Timeout 3] consistent_busy).
  - apply (proj2 (proj2 (proj2
             (correlator_settles_once Json.parse Json.stringify busy [] consistent_busy)))
             2 late_frame
             (VObj [("jsonrpc", VStr "2.0"); ("id", VNum 2);
                    ("result", VObj [("content", VArr [])])])).
    + discriminate.
    + reflexivity.
    + reflexivity.
Defined.





(** The bytes of [text]. *)
Definition bytes_of (text : string) : list byte := list_byte_of_string text.

(** The letter e with an acute accent: the bytes C3 A9. *)
Definition e_acute : string := String "195" (String "169" EmptyString).

(** The response [{"jsonrpc":"2.0","id":3,"result":"café"}] as the
    worker writes it, cut behind the accented letter ... *)
Definition cafe_head : list byte :=
  bytes_of (Json.text "{'jsonrpc':'2.0','id':3,'result':'caf" +:+ e_acute).
Definition cafe_tail : list byte :=
  bytes_of (Json.text "'}" +:+ newline).

(** ... and cut inside it, between its two bytes. *)
Definition cafe_cut_head : list byte :=
  bytes_of (Json.text "{'jsonrpc':'2.0','id':3,'result':'caf") ++ [xc3].
Definition cafe_cut_tail : list byte :=
  xa9 :: bytes_of (Json.text "'}" +:+ newline).

Lemma chunks_cut_between_characters_reassemble_witness :
  feed_bytes Json.parse Json.stringify [cafe_head; cafe_tail] busy
  = handle_line Json.parse Json.stringify busy
      (Json.text "{'jsonrpc':'2.0','id':3,'result':'caf" +:+ e_acute +:+ Json.text "'}") /\
  promise_state
    (feed_bytes Json.parse Json.stringify [cafe_head; cafe_tail] busy) 3
  = Some (Resolved (VStr ("caf" +:+ e_acute))).
Proof.
  assert (Hsplit :
    feed_bytes Json.parse Json.stringify [cafe_head; cafe_tail] busy
    = handle_line Json.parse Json.stringify busy
        (Json.text "{'jsonrpc':'2.0','id':3,'result':'caf" +:+ e_acute +:+ Json.text "'}")).
  { apply (proj1 (proj2 (proj2
             (chunks_cut_between_characters_reassemble Json.parse Json.stringify))));
      vm_compute; reflexivity. }
  split; [exact Hsplit|].
  rewrite Hsplit. vm_compute. reflexivity.
Defined.

(** C4 fails for a frame cut inside a character: the same bytes, cut
    between the two bytes of the accented letter, are decoded chunk by
    chunk into a text with two U+FFFD in its place.  The reader still
    hands one line to the loop body, once, but it is not the frame that
    was sent: call 3 is resolved with another string than the one the
    bytes hold. *)
Lemma frame_cut_inside_character :
  cafe_cut_head ++ cafe_cut_tail = cafe_head ++ cafe_tail /\
  Utf8.toString (cafe_head ++ cafe_tail)
  = Json.text "{'jsonrpc':'2.0','id':3,'result':'caf" +:+ e_acute +:+ Json.text "'}"
    +:+ newline /\
  promise_state
    (feed_bytes Json.parse Json.stringify [cafe_head ++ cafe_tail] busy) 3
  = Some (Resolved (VStr ("caf" +:+ e_acute))) /\
  Utf8.toString cafe_cut_head
  = Json.text "{'jsonrpc':'2.0','id':3,'result':'caf" +:+ Utf8.replacement /\
  Utf8.toString cafe_cut_tail
  = Utf8.replacement +:+ Json.text "'}" +:+ newline /\
  feed_bytes Json.parse Json.stringify [cafe_cut_head; cafe_cut_tail] busy
  = handle_line Json.parse Json.stringify busy
      (Json.text "{'jsonrpc':'2.0','id':3,'result':'caf"
       +:+ Utf8.replacement +:+ Utf8.replacement +:+ Json.text "'}") /\
  promise_state
    (feed_bytes Json.parse Json.stringify [cafe_cut_head; cafe_cut_tail] busy) 3
  = Some (Resolved (VStr ("caf" +:+ Utf8.replacement +:+ Utf8.replacement))) /\
  feed_bytes Json.parse Json.stringify [cafe_cut_head; cafe_cut_tail] busy
  <> feed_bytes Json.parse Json.stringify [cafe_cut_head ++ cafe_cut_tail] busy.
Proof.
  do 7 (split; [vm_compute; reflexivity|]).
  intros H. apply (f_equal (fun st => promise_state st 3)) in H.
  vm_compute in H. discriminate H.
Qed.

(** * Further properties of the client *)

Section Reception.

Variable JSON_parse : string -> option value.
Variable JSON_stringify : value -> string.

Local Abbreviation handle := (handle_line JSON_parse JSON_stringify).
Local Abbreviation accept := (deliver JSON_parse JSON_stringify).
Local Abbreviation receive := (on_data JSON_parse JSON_stringify).

(** A line the loop body does not skip before looking at the table: it is
    not blank and it decodes. *)
Definition readable (line : string) : bool :=
  negb (is_blank line) &&
  match JSON_parse line with Some _ => true | None => false end.

Lemma handle_unreadable (st : client) (line : string) :
  readable line = false -> handle st line = st.
Proof.
  unfold readable, handle_line. intros H.
  destruct (is_blank line); [reflexivity|].
  destruct (JSON_parse line); [discriminate | reflexivity].
Qed.

Lemma accept_readable (lines : list string) (st : client) :
  accept lines st = accept (List.filter readable lines) st.
Proof.
  revert st. induction lines as [|l lines IH]; intros st; [reflexivity|].
  simpl List.filter. destruct (readable l) eqn:Hl.
  - change (accept (l :: lines) st) with (accept lines (handle st l)).
    change (accept (l :: List.filter readable lines) st)
      with (accept (List.filter readable lines) (handle st l)).
    apply IH.
  - change (accept (l :: lines) st) with (accept lines (handle st l)).
    rewrite (handle_unreadable _ _ Hl). apply IH.
Qed.

(** X1: blank lines and lines that are not JSON, wherever they stand
    between the frames and however the text is cut into chunks, change
    nothing: the client ends in the state it reaches on the readable lines
    alone. *)
Theorem malformed_lines_are_skipped (chunks : list string) (st : client) :
  no_newline (buffer st) = true ->
  feed JSON_parse JSON_stringify chunks st
  = accept
      (List.filter readable (complete_lines (buffer st +:+ concat_chunks chunks)))
      (set_buffer (remainder (buffer st +:+ concat_chunks chunks)) st).
Proof.
  intros Hbuf. rewrite feed_frames by exact Hbuf. apply accept_readable.
Qed.

Lemma handle_shrinks (st : client) (line : string) :
  (forall id p, pendingRequests (handle st line) !! id = Some p ->
                pendingRequests st !! id = Some p) /\
  exists new,
    settled (handle st line) = settled st ++ new /\
    forall c o, In (c, o) new ->
      exists id p, pendingRequests st !! id = Some p /\ call p = c /\
                   pendingRequests (handle st line) !! id = None.
Proof.
  assert (Hsame :
    (forall id p, pendingRequests st !! id = Some p -> pendingRequests st !! id = Some p) /\
    exists new, settled st = settled st ++ new /\
      forall c o, In (c, o) new ->
        exists id p, pendingRequests st !! id = Some p /\ call p = c /\
                     pendingRequests st !! id = None).
  { split; [auto|]. exists []. split; [now rewrite app_nil_r | intros c o []]. }
  unfold handle_line.
  destruct (is_blank line); [exact Hsame|].
  destruct (JSON_parse line) as [response|]; [|exact Hsame].
  destruct (Js.nullish response); [exact Hsame|].
  unfold get_pending.
  destruct (Js.get_prop response "id"); try exact Hsame.
  destruct (pendingRequests st !! n) as [p|] eqn:Hp; [|exact Hsame].
  assert (Htake : forall o,
    (forall id q,
        pendingRequests
          (settle (call p) o (set_pending (delete n (pendingRequests st)) st)) !! id
        = Some q -> pendingRequests st !! id = Some q) /\
    exists new,
      settled (settle (call p) o (set_pending (delete n (pendingRequests st)) st))
      = settled st ++ new /\
      forall c o', In (c, o') new ->
        exists id q, pendingRequests st !! id = Some q /\ call q = c /\
          pendingRequests
            (settle (call p) o (set_pending (delete n (pendingRequests st)) st)) !! id
          = None).
  { intros o. split.
    - simpl. intros id q H. now apply lookup_delete_Some in H as [_ H].
    - exists [(call p, o)]. split; [reflexivity|].
      intros c o' [H | []]. injection H as <- <-.
      exists n, p. split; [exact Hp|]. split; [reflexivity|].
      simpl. apply lookup_delete_eq. }
  destruct (Js.truthy (Js.get_prop response "error")); apply Htake.
Qed.

Lemma accept_shrinks (lines : list string) (st : client) :
  (forall id p, pendingRequests (accept lines st) !! id = Some p ->
                pendingRequests st !! id = Some p) /\
  exists new,
    settled (accept lines st) = settled st ++ new /\
    forall c o, In (c, o) new ->
      exists id p, pendingRequests st !! id = Some p /\ call p = c /\
                   pendingRequests (accept lines st) !! id = None.
Proof.
  revert st. induction lines as [|l lines IH]; intros st.
  - split; [auto|]. exists []. split; [now rewrite app_nil_r | intros c o []].
  - change (accept (l :: lines) st) with (accept lines (handle st l)).
    destruct (handle_shrinks st l) as (Hsub1 & new1 & Hlog1 & Hnew1).
    destruct (IH (handle st l)) as (Hsub2 & new2 & Hlog2 & Hnew2).
    split; [auto|].
    exists (new1 ++ new2). split.
    + rewrite Hlog2, Hlog1, app_assoc. reflexivity.
    + intros c o Hin. apply in_app_or in Hin as [Hin | Hin].
      * destruct (Hnew1 c o Hin) as (id & p & Hp & Hc & Hgone).
        exists id, p. split; [exact Hp|]. split; [exact Hc|].
        destruct (pendingRequests (accept lines (handle st l)) !! id) as [q|] eqn:Hq;
          [|reflexivity].
        apply Hsub2 in Hq. congruence.
      * destruct (Hnew2 c o Hin) as (id & p & Hp & Hc & Hgone).
        exists id, p. split; [now apply Hsub1|]. split; [exact Hc | exact Hgone].
Qed.

(** X2: handling a chunk never stores a table entry and never touches the
    id counter, the timers or the process handle; it only takes entries
    out, and every [resolve] or [reject] it invokes belongs to an entry
    that was in the table before the chunk and is gone after it. *)
Theorem receive_only_settles_pending (chunk : string) (st : client) :
  (forall id p, pendingRequests (receive chunk st) !! id = Some p ->
                pendingRequests st !! id = Some p) /\
  (exists new,
      settled (receive chunk st) = settled st ++ new /\
      forall c o, In (c, o) new ->
        exists id p, pendingRequests st !! id = Some p /\ call p = c /\
                     pendingRequests (receive chunk st) !! id = None) /\
  requestId (receive chunk st) = requestId st /\
  timers (receive chunk st) = timers st /\
  process (receive chunk st) = process st.
Proof.
  destruct (receive_keeps JSON_parse JSON_stringify chunk st) as (Hp & Hr & Ht).
  rewrite receive_frames.
  destruct (accept_shrinks (complete_lines (buffer st +:+ chunk))
              (set_buffer (remainder (buffer st +:+ chunk)) st)) as [Hsub Hnew].
  rewrite receive_frames in Hp, Hr, Ht.
  split; [exact Hsub|]. split; [exact Hnew|]. auto.
Qed.

End Reception.

Section Correlation.

Variable JSON_parse : string -> option value.
Variable JSON_stringify : value -> string.

Local Abbreviation send := (request JSON_stringify).
Local Abbreviation next := (step JSON_parse JSON_stringify).
Local Abbreviation play := (run JSON_parse JSON_stringify).

Lemma requestId_run (evs : list event) (st : client) :
  requestId st <= requestId (play evs st).
Proof.
  revert st. induction evs as [|e evs IH]; intros st; [simpl; lia|].
  change (play (e :: evs) st) with (play evs (next st e)).
  pose proof (requestId_step JSON_parse JSON_stringify st e).
  specialize (IH (next st e)). lia.
Qed.

Lemma send_id (method : string) (params : value) (st : client) :
  fst (send method params st) = requestId st + 1 /\
  requestId (snd (send method params st)) = requestId st + 1.
Proof. unfold request. destruct (process st); simpl; auto. Qed.

(** X3: ids are handed out in strictly increasing order and never again:
    whatever happens between two requests (other requests, chunks, timers,
    with or without a process), the later one gets a larger id than the
    earlier one, and each id is one more than the counter it found. *)
Theorem request_ids_increase
  (st : client) (m1 m2 : string) (p1 p2 : value) (evs : list event) :
  fst (send m1 p1 st) = requestId st + 1 /\
  fst (send m1 p1 st) < fst (send m2 p2 (play evs (snd (send m1 p1 st)))).
Proof.
  destruct (send_id m1 p1 st) as [Hid Hr]. split; [exact Hid|].
  destruct (send_id m2 p2 (play evs (snd (send m1 p1 st)))) as [-> _].
  pose proof (requestId_run evs (snd (send m1 p1 st))). lia.
Qed.

(** Every table entry still has its timer. *)
Definition armed (st : client) : Prop :=
  process st <> None /\
  forall id p, pendingRequests st !! id = Some p -> timers st !! id <> None.

Lemma armed_step (st : client) (e : event) : armed st -> armed (next st e).
Proof.
  intros [Hproc Harmed]. destruct e as [method params | chunk | id]; simpl.
  - unfold request. destruct (process st) as [w|] eqn:Hw; [|contradiction].
    split; simpl; [discriminate|].
    intros k q Hk. apply lookup_insert_Some in Hk as [[<- _] | [Hne Hk]].
    + now rewrite lookup_insert_eq.
    + rewrite lookup_insert_ne by exact Hne. eauto.
  - destruct (process st) as [w|] eqn:Hw; [|contradiction].
    destruct (listening w); [|split; [congruence | exact Harmed]].
    destruct (receive_keeps JSON_parse JSON_stringify chunk st) as (Hp & _ & Ht).
    split; [rewrite Hp; congruence|].
    intros k q Hk. rewrite Ht. apply (Harmed k q).
    rewrite receive_frames in Hk.
    now apply (accept_shrinks JSON_parse JSON_stringify) in Hk.
  - destruct (timers st !! id) as [method|] eqn:Ht; [|split; assumption].
    unfold on_timeout. simpl.
    destruct (pendingRequests st !! id) as [p|] eqn:Hp; simpl.
    + split; [exact Hproc|]. intros k q Hk. simpl in Hk. simpl.
      apply lookup_delete_Some in Hk as [Hne Hk].
      rewrite lookup_delete_ne by exact Hne. eauto.
    + split; [exact Hproc|]. intros k q Hk. simpl in Hk. simpl.
      rewrite lookup_delete_ne by congruence. eauto.
Qed.

Lemma armed_run (evs : list event) (st : client) : armed st -> armed (play evs st).
Proof.
  revert st. induction evs as [|e evs IH]; intros st Hst; [exact Hst|].
  apply IH. now apply armed_step.
Qed.

(** X4: on a started client no table entry outlives its timer: along any
    run every entry in the table has its timer still armed, and when that
    timer fires the entry is gone. *)
Theorem entries_never_outlive_timers (st : client) (evs : list event) :
  armed st ->
  forall id p,
    pendingRequests (play evs st) !! id = Some p ->
    (exists method, timers (play evs st) !! id = Some method) /\
    pendingRequests (next (play evs st) (Timeout id)) !! id = None /\
    timers (next (play evs st) (Timeout id)) !! id = None.
Proof.
  intros Hst id p Hp. destruct (armed_run evs st Hst) as [_ Harmed].
  destruct (timers (play evs st) !! id) as [method|] eqn:Ht;
    [|now destruct (Harmed _ _ Hp)].
  split; [now exists method|].
  simpl. rewrite Ht. unfold on_timeout. simpl. rewrite Hp. simpl.
  split; apply lookup_delete_eq.
Qed.

(** X5: a timer that fires after its call was settled does nothing but
    disarm itself: the log of settlements and the table stay as they are. *)
Theorem timer_after_settlement_is_idle (st : client) (id : Z) :
  consistent st ->
  In id (settled_ids st) ->
  settled (next st (Timeout id)) = settled st /\
  pendingRequests (next st (Timeout id)) = pendingRequests st /\
  timers (next st (Timeout id)) !! id = None.
Proof.
  intros Hst Hin.
  assert (Hgone : pendingRequests st !! id = None).
  { destruct (pendingRequests st !! id) as [p|] eqn:Hp; [|reflexivity].
    now destruct (table_unsettled st Hst _ _ Hp). }
  simpl. destruct (timers st !! id) as [method|] eqn:Ht.
  - unfold on_timeout. simpl. rewrite Hgone. simpl.
    repeat split. apply lookup_delete_eq.
  - auto.
Qed.

(** Timers exist for allocated ids only. *)
Definition timers_allocated (st : client) : Prop :=
  forall id method, timers st !! id = Some method -> id <= requestId st.

(** What holds of the entry left behind by a request without a process. *)
Definition stranded (id : Z) (st : client) : Prop :=
  process st = None /\
  pendingRequests st !! id = Some (mkPending id) /\
  timers st !! id = None /\
  id <= requestId st.

Lemma stranded_step (id : Z) (st : client) (e : event) :
  stranded id st -> stranded id (next st e).
Proof.
  intros (Hproc & Hentry & Htimer & Hid). unfold stranded.
  destruct e as [method params | chunk | k]; simpl.
  - unfold request. rewrite Hproc. simpl.
    split; [reflexivity|]. split; [|split; [exact Htimer | lia]].
    rewrite lookup_insert_ne by lia. exact Hentry.
  - rewrite Hproc. auto.
  - destruct (timers st !! k) as [method|] eqn:Ht; [|auto].
    assert (Hne : k <> id) by congruence.
    unfold on_timeout. simpl.
    destruct (pendingRequests st !! k) as [p|] eqn:Hp; simpl.
    + split; [exact Hproc|]. split; [|split; [|exact Hid]].
      * rewrite lookup_delete_ne by exact Hne. exact Hentry.
      * rewrite lookup_delete_ne by exact Hne. exact Htimer.
    + split; [exact Hproc|]. split; [exact Hentry|]. split; [|exact Hid].
      rewrite lookup_delete_ne by exact Hne. exact Htimer.
Qed.

(** X6: a request made while the client has no process handle (before
    [start], after [stop] has finished) is rejected with the [TypeError] of
    the failed write, yet its entry was already stored and no timer was
    armed for it: the entry stays in the table through every later event
    and through [stop]. *)
Theorem request_without_process_strands_entry
  (st : client) (method : string) (params : value) (evs : list event) :
  process st = None ->
  timers_allocated st ->
  let id := fst (send method params st) in
  let st' := snd (send method params st) in
  settled st' = settled st ++ [(id, Rejected TypeError)] /\
  timers st' !! id = None /\
  pendingRequests (play evs st') !! id = Some (mkPending id) /\
  pendingRequests (stop (play evs st')) !! id = Some (mkPending id).
Proof.
  intros Hproc Htimers id st'.
  assert (Hst' : stranded id st').
  { unfold stranded, st', id, request. rewrite Hproc. simpl.
    split; [reflexivity|]. split; [apply lookup_insert_eq|]. split; [|lia].
    destruct (timers st !! (requestId st + 1)) as [m|] eqn:Ht; [|reflexivity].
    specialize (Htimers _ _ Ht). lia. }
  assert (Hrun : stranded id (play evs st')).
  { clear -Hst'. revert Hst'. generalize st'. induction evs as [|e evs IH];
      intros s Hs; [exact Hs|]. apply IH. now apply stranded_step. }
  split; [|split; [|split]].
  - unfold st', id, request. rewrite Hproc. reflexivity.
  - apply Hst'.
  - apply Hrun.
  - destruct Hrun as (Hp & Hentry & _). unfold stop. now rewrite Hp.
Qed.

End Correlation.

Section Handshake.

Variable JSON_parse : string -> option value.
Variable JSON_stringify : value -> string.

Local Abbreviation next := (step JSON_parse JSON_stringify).


End Handshake.

(** ** Envelopes at every depth *)

(** No object anywhere in the value is the empty-key envelope. *)
Fixpoint envelope_free (v : value) : bool :=
  match v with
  | VArr items => forallb envelope_free items
  | VObj props =>
      negb (envelope props)
      && forallb (fun kv : string * value => let (_, x) := kv in envelope_free x) props
  | _ => true
  end.

Lemma envelope_free_arr (items : list value) :
  envelope_free (VArr items) = true <-> Forall (fun x => envelope_free x = true) items.
Proof. simpl. rewrite forallb_forall, List.Forall_forall. reflexivity. Qed.

Lemma envelope_free_obj (props : list (string * value)) :
  envelope_free (VObj props) = true <->
  envelope props = false /\ Forall (fun kv => envelope_free (snd kv) = true) props.
Proof.
  simpl. rewrite andb_true_iff, negb_true_iff, forallb_forall, List.Forall_forall.
  split; intros [Henv Hall]; split; try assumption.
  - intros [k v] Hin. apply (Hall (k, v) Hin).
  - intros [k v] Hin. apply (Hall (k, v) Hin).
Qed.

Lemma normalizeData_envelope_free (v : value) :
  well_formed v = true -> proto_free v = true ->
  envelope_free (normalizeData v) = true.
Proof.
  induction v as [| | b | n | s | items IH | props IH] using value_ind;
    intros Hwf Hpf; try reflexivity.
  - change (normalizeData (VArr items)) with (VArr (map normalizeData items)).
    apply well_formed_arr in Hwf. apply proto_free_arr in Hpf. apply envelope_free_arr.
    rewrite List.Forall_forall in *. intros y Hy.
    apply in_map_iff in Hy as (x & <- & Hx). auto.
  - apply well_formed_obj in Hwf as [Hnd Hall].
    apply proto_free_obj in Hpf as [Hno Hpf].
    destruct (envelope props) eqn:Henv.
    + apply envelope_inv in Henv as [v ->]. rewrite normalizeData_envelope.
      inversion IH as [|? ? IHv _]; subst. inversion Hall as [|? ? Hv _]; subst.
      inversion Hpf as [|? ? Hfv _]; subst.
      simpl in *. destruct v; auto.
    + rewrite normalizeData_rebuilt by assumption.
      apply envelope_free_obj. split; [now rewrite envelope_map_values|].
      unfold map_values. rewrite List.Forall_forall in *.
      intros kv Hkv. apply in_map_iff in Hkv as ([k x] & <- & Hx). simpl.
      apply (IH (k, x) Hx); [apply (Hall (k, x) Hx) | apply (Hpf (k, x) Hx)].
Qed.

Lemma normalizeData_fixes_envelope_free (v : value) :
  well_formed v = true -> proto_free v = true ->
  envelope_free v = true -> normalizeData v = v.
Proof.
  induction v as [| | b | n | s | items IH | props IH] using value_ind;
    intros Hwf Hpf Hfree; try reflexivity.
  - change (normalizeData (VArr items)) with (VArr (map normalizeData items)).
    f_equal. apply well_formed_arr in Hwf. apply proto_free_arr in Hpf.
    apply envelope_free_arr in Hfree.
    rewrite List.Forall_forall in *.
    rewrite <- (map_id items) at 2. apply map_ext_in. auto.
  - apply well_formed_obj in Hwf as [Hnd Hall].
    apply proto_free_obj in Hpf as [Hno Hpf].
    apply envelope_free_obj in Hfree as [Henv Hfree].
    rewrite normalizeData_rebuilt by assumption. f_equal.
    unfold map_values. rewrite List.Forall_forall in *.
    rewrite <- (map_id props) at 2. apply map_ext_in.
    intros [k x] Hx. simpl. f_equal.
    apply (IH (k, x) Hx);
      [apply (Hall (k, x) Hx) | apply (Hpf (k, x) Hx) | apply (Hfree (k, x) Hx)].
Qed.

(** X8: on a value whose objects have no own property named [__proto__],
    [normalizeData] peels the empty-key envelope at every depth: no object
    of the result, however deeply nested, has the empty string as its only
    key, and the result is again such a value. *)
Theorem normalizeData_leaves_no_envelope (v : value) :
  well_formed v = true ->
  proto_free v = true ->
  envelope_free (normalizeData v) = true /\
  well_formed (normalizeData v) = true /\
  proto_free (normalizeData v) = true.
Proof.
  intros Hwf Hpf. split; [now apply normalizeData_envelope_free|].
  split; [now apply normalizeData_well_formed | now apply normalizeData_proto_free].
Qed.

(** X9: among the values whose objects have no own property named
    [__proto__], those [normalizeData] returns unchanged are exactly those
    with no empty-key envelope in them. *)
Theorem normalizeData_unchanged_iff_no_envelope (v : value) :
  well_formed v = true ->
  proto_free v = true ->
  (normalizeData v = v <-> envelope_free v = true).
Proof.
  intros Hwf Hpf. split.
  - intros Heq. rewrite <- Heq. now apply normalizeData_envelope_free.
  - now apply normalizeData_fixes_envelope_free.
Qed.

(** * The code-execution client and its API proxy

    The third implementation in [src/index.ts] (lines 743-1008): an
    [MCPClient] with the same table, reader and [request], whose error and
    timeout messages, [callTool] and [stop] differ, and the proxy
    [buildAPIProxy] that turns positional arguments into tool calls. *)

Module Exec.

Section ExecClient.

Variable JSON_parse : string -> option value.
Variable JSON_stringify : value -> string.

(** [response.error.message || 'MCP error'] (line 851). *)
Definition error_message (err : value) : string :=
  let message := Js.get_prop err "message" in
  if Js.truthy message then Js.to_string message else "MCP error".

(** The body of the loop of [processBuffer] (lines 842-858); a line that
    does not decode is reported on the console and dropped. *)
Definition handle_line (st : client) (line : string) : client :=
  if is_blank line then st
  else
    match JSON_parse line with
    | None => st
    | Some response =>
        if Js.nullish response then st
        else
          match get_pending (Js.get_prop response "id") st with
          | None => st
          | Some (id, p) =>
              let st' := set_pending (delete id (pendingRequests st)) st in
              let err := Js.get_prop response "error" in
              if Js.truthy err
              then settle (call p) (Rejected (Error (error_message err))) st'
              else settle (call p) (Resolved (Js.get_prop response "result")) st'
          end
    end.

(** [processBuffer] (lines 837-860) and the [data] listener (lines
    823-826). *)
Definition processBuffer (st : client) : client :=
  fold_left handle_line (complete_lines (buffer st))
    (set_buffer (remainder (buffer st)) st).

Definition on_data (chunk : string) (st : client) : client :=
  processBuffer (set_buffer (buffer st +:+ chunk) st).

(** The timer callback of [request] (lines 891-896): the message does not
    name the method. *)
Definition on_timeout (id : Z) (st : client) : client :=
  match pendingRequests st !! id with
  | Some _ =>
      settle id (Rejected (Error "Request timeout"))
        (set_pending (delete id (pendingRequests st)) st)
  | None => st
  end.

(** [callTool] (lines 912-918) and [listTools] (lines 923-925), up to their
    [await]: the result of the request is handed back as it is. *)
Definition callTool (name : string) (args : value) (st : client) : Z * client :=
  let arguments := match args with VUndefined => VObj [] | _ => args end in
  request JSON_stringify "tools/call"
    (VObj [("name", VStr name); ("arguments", arguments)]) st.

Definition listTools (st : client) : Z * client :=
  request JSON_stringify "tools/list" (VObj []) st.

(** [stop] (lines 927-931): [kill()] sends SIGTERM; the table, the
    listeners and the handle stay. *)
Definition stop (st : client) : client :=
  match process st with
  | None => st
  | Some w =>
      set_process
        (Some {| stdin := stdin w; listening := listening w;
                 signals := signals w ++ [SIGTERM] |}) st
  end.

Definition step (st : client) (e : event) : client :=
  match e with
  | Send method params => snd (request JSON_stringify method params st)
  | Data chunk =>
      match process st with
      | Some w => if listening w then on_data chunk st else st
      | None => st
      end
  | Timeout id =>
      match timers st !! id with
      | Some _ => on_timeout id (set_timers (delete id (timers st)) st)
      | None => st
      end
  end.

Definition run (evs : list event) (st : client) : client := fold_left step evs st.

End ExecClient.

(** [paramMappings] (lines 973-979). *)
Definition paramMappings : list (string * list string) :=
  [("navigate_page", ["url"; "options"]);
   ("click", ["selector"; "options"]);
   ("fill", ["selector"; "value"]);
   ("take_screenshot", ["options"]);
   ("evaluate_script", ["script"; "pageId"])].

Fixpoint lookup_names (tool : string) (table : list (string * list string))
  : option (list string) :=
  match table with
  | [] => None
  | (t, names) :: rest => if String.eqb tool t then Some names else lookup_names tool rest
  end.

(** [paramMappings[toolName] || []]: a name the table does not hold gives
    no parameter name at any index. *)
Definition paramNames (tool : string) : list string :=
  match lookup_names tool paramMappings with
  | Some names => names
  | None => []
  end.

(** The callback of [args.forEach] (lines 983-987) at index [i]. *)
Definition assign (names : list string) (params : list (string * value))
  (indexed : nat * value) : list (string * value) :=
  let (i, arg) := indexed in
  match nth_error names i with
  | Some name => if negb (String.eqb name "") then Js.obj_set name arg params else params
  | None => params
  end.

Definition indexed (args : list value) : list (nat * value) :=
  combine (seq 0 (length args)) args.

(** [mapArgsToParams] (lines 967-990). *)
Definition mapArgsToParams (tool : string) (args : list value) : value :=
  match args with
  | [] => VObj []
  | [arg] =>
      if Js.typeof_object arg then arg
      else VObj (fold_left (assign (paramNames tool)) (indexed args) [])
  | _ => VObj (fold_left (assign (paramNames tool)) (indexed args) [])
  end.

(** [categories] (lines 940-947). *)
Definition categories : list (string * list string) :=
  [("input", ["click"; "drag"; "fill"; "fill_form"; "handle_dialog"; "hover";
              "press_key"; "upload_file"]);
   ("navigation", ["close_page"; "list_pages"; "navigate_page"; "new_page";
                   "select_page"; "wait_for"]);
   ("emulation", ["emulate"; "resize_page"]);
   ("performance", ["performance_analyze_insight"; "performance_start_trace";
                    "performance_stop_trace"]);
   ("network", ["get_network_request"; "list_network_requests"]);
   ("debugging", ["evaluate_script"; "get_console_message"; "list_console_messages";
                  "take_screenshot"; "take_snapshot"])].

(** Whether [buildAPIProxy] (lines 937-961) defines [api[category][tool]]. *)
Definition has_tool (category tool : string) : bool :=
  match lookup_names category categories with
  | Some tools => existsb (String.eqb tool) tools
  | None => false
  end.

(** The call [api[category][tool](...args)] up to the [await] of
    [callTool]; [None] when the proxy defines no such function. *)
Definition api_call (JSON_stringify : value -> string)
  (category tool : string) (args : list value) (st : client) : option (Z * client) :=
  if has_tool category tool
  then Some (callTool JSON_stringify tool (mapArgsToParams tool args) st)
  else None.

End Exec.

(** ** Positional arguments *)

Lemma assign_pairs (all names : list string) (args : list value)
  (done : list (string * value)) (k : nat) :
  (forall j, nth_error all (k + j) = nth_error names j) ->
  List.NoDup (map fst done ++ names) ->
  Forall (fun name => name <> "") names ->
  fold_left (Exec.assign all) (combine (seq k (length args)) args) done
  = done ++ combine names args.
Proof.
  revert names done k.
  induction args as [|arg args IH]; intros names done k Hnth Hnd Hne.
  - simpl. destruct names; simpl; now rewrite app_nil_r.
  - simpl. pose proof (Hnth 0%nat) as H0. rewrite Nat.add_0_r in H0. rewrite H0.
    destruct names as [|name names]; simpl.
    + rewrite (IH [] done (S k)); [reflexivity | | exact Hnd | constructor].
      intros j. replace (S k + j)%nat with (k + S j)%nat by lia.
      rewrite Hnth. now destruct j.
    + inversion Hne as [|? ? Hname Hrest]; subst.
      apply String.eqb_neq in Hname. rewrite Hname. simpl.
      rewrite obj_set_fresh.
      * rewrite (IH names (done ++ [(name, arg)]) (S k)).
        -- now rewrite <- app_assoc.
        -- intros j. replace (S k + j)%nat with (k + S j)%nat by lia.
           now rewrite Hnth.
        -- rewrite map_app. simpl. rewrite <- app_assoc. exact Hnd.
        -- exact Hrest.
      * apply NoDup_remove_2 in Hnd. intros Hin. apply Hnd.
        apply in_or_app. now left.
Qed.

Lemma paramNames_cases (tool : string) :
  Exec.paramNames tool = [] \/
  Exec.paramNames tool = ["url"; "options"] \/
  Exec.paramNames tool = ["selector"; "options"] \/
  Exec.paramNames tool = ["selector"; "value"] \/
  Exec.paramNames tool = ["options"] \/
  Exec.paramNames tool = ["script"; "pageId"].
Proof.
  unfold Exec.paramNames, Exec.paramMappings. simpl.
  repeat (match goal with
          | |- context [String.eqb tool ?t] => destruct (String.eqb tool t)
          end; [tauto|]).
  now left.
Qed.

Lemma paramNames_distinct (tool : string) :
  List.NoDup (Exec.paramNames tool) /\
  Forall (fun name => name <> "") (Exec.paramNames tool).
Proof.
  destruct (paramNames_cases tool) as [-> | [-> | [-> | [-> | [-> | ->]]]]];
    (split; [apply nodup_keys_NoDup; reflexivity
            | repeat constructor; discriminate]).
Qed.

Lemma mapArgsToParams_combine (tool : string) (args : list value) :
  args <> [] ->
  (forall arg, args = [arg] -> Js.typeof_object arg = false) ->
  Exec.mapArgsToParams tool args = VObj (combine (Exec.paramNames tool) args).
Proof.
  intros Hne Hprim.
  assert (Hfold : VObj (fold_left (Exec.assign (Exec.paramNames tool))
                          (Exec.indexed args) [])
                  = VObj (combine (Exec.paramNames tool) args)).
  { f_equal. unfold Exec.indexed.
    destruct (paramNames_distinct tool) as [Hnd Hnames].
    now rewrite (assign_pairs _ (Exec.paramNames tool) args [] 0). }
  destruct args as [|arg [|arg' rest]]; [contradiction | | exact Hfold].
  unfold Exec.mapArgsToParams. rewrite (Hprim arg eq_refl). exact Hfold.
Qed.

(** X10: [mapArgsToParams] on arguments that are not a lone object pairs
    the parameter names of the tool with the arguments, position by
    position, and stops at the shorter of the two: arguments beyond the
    names are dropped, and a tool without an entry in [paramMappings] gets
    the empty object whatever it was given.  No argument gives the empty
    object; a lone object, array or [null] comes back as it is. *)
Theorem mapArgsToParams_pairs (tool : string) (args : list value) :
  Exec.mapArgsToParams tool [] = VObj [] /\
  (forall arg, Js.typeof_object arg = true -> Exec.mapArgsToParams tool [arg] = arg) /\
  (args <> [] ->
   (forall arg, args = [arg] -> Js.typeof_object arg = false) ->
   Exec.mapArgsToParams tool args = VObj (combine (Exec.paramNames tool) args) /\
   (Exec.lookup_names tool Exec.paramMappings = None ->
    Exec.mapArgsToParams tool args = VObj [])).
Proof.
  split; [reflexivity|]. split.
  - intros arg Harg. simpl. now rewrite Harg.
  - intros Hne Hprim.
    pose proof (mapArgsToParams_combine tool args Hne Hprim) as Hmap.
    split; [exact Hmap|].
    intros Hnone. rewrite Hmap. unfold Exec.paramNames. now rewrite Hnone.
Qed.

Section ExecFacts.

Variable JSON_parse : string -> option value.
Variable JSON_stringify : value -> string.

Local Abbreviation xhandle := (Exec.handle_line JSON_parse).
Local Abbreviation xstep := (Exec.step JSON_parse JSON_stringify).
Local Abbreviation xrun := (Exec.run JSON_parse JSON_stringify).

Lemma exec_handle_set_process (w : option worker) (st : client) (line : string) :
  xhandle (set_process w st) line = set_process w (xhandle st line).
Proof.
  unfold Exec.handle_line.
  destruct (is_blank line); [reflexivity|].
  destruct (JSON_parse line) as [response|]; [|reflexivity].
  destruct (Js.nullish response); [reflexivity|].
  unfold get_pending. simpl.
  destruct (Js.get_prop response "id"); try reflexivity.
  destruct (pendingRequests st !! n); [|reflexivity].
  destruct (Js.truthy (Js.get_prop response "error")); reflexivity.
Qed.

Lemma exec_lines_set_process (w : option worker) (lines : list string) (st : client) :
  fold_left xhandle lines (set_process w st) = set_process w (fold_left xhandle lines st).
Proof.
  revert st. induction lines as [|l lines IH]; intros st; [reflexivity|].
  simpl. rewrite exec_handle_set_process. apply IH.
Qed.

Lemma exec_on_data_set_process (w : option worker) (chunk : string) (st : client) :
  Exec.on_data JSON_parse chunk (set_process w st)
  = set_process w (Exec.on_data JSON_parse chunk st).
Proof.
  unfold Exec.on_data, Exec.processBuffer. simpl.
  apply (exec_lines_set_process w _
           (set_buffer (remainder (buffer st +:+ chunk)) (set_buffer (buffer st +:+ chunk) st))).
Qed.

Lemma exec_lines_process (lines : list string) (st : client) :
  process (fold_left xhandle lines st) = process st.
Proof.
  revert st. induction lines as [|l lines IH]; intros st; [reflexivity|].
  simpl. rewrite IH. unfold Exec.handle_line.
  destruct (is_blank l); [reflexivity|].
  destruct (JSON_parse l) as [response|]; [|reflexivity].
  destruct (Js.nullish response); [reflexivity|].
  destruct (get_pending (Js.get_prop response "id") st) as [[id p]|]; [|reflexivity].
  destruct (Js.truthy (Js.get_prop response "error")); reflexivity.
Qed.

Lemma exec_on_data_process (chunk : string) (st : client) :
  process (Exec.on_data JSON_parse chunk st) = process st.
Proof. unfold Exec.on_data, Exec.processBuffer. now rewrite exec_lines_process. Qed.

Lemma exec_stop_started (st : client) (w : worker) :
  process st = Some w ->
  Exec.stop st
  = set_process
      (Some {| stdin := stdin w; listening := listening w;
               signals := signals w ++ [SIGTERM] |}) st.
Proof. intros Hw. unfold Exec.stop. now rewrite Hw. Qed.

Lemma exec_stop_idle (st : client) : process st = None -> Exec.stop st = st.
Proof. intros Hw. unfold Exec.stop. now rewrite Hw. Qed.

Lemma exec_stop_step (st : client) (e : event) :
  xstep (Exec.stop st) e = Exec.stop (xstep st e).
Proof.
  destruct e as [method params | chunk | id].
  - unfold Exec.step, Exec.stop, request.
    destruct (process st) as [w|] eqn:Hw; simpl; rewrite ?Hw; reflexivity.
  - destruct (process st) as [w|] eqn:Hw.
    + rewrite (exec_stop_started st w Hw). unfold Exec.step.
      cbn [process set_process listening]. rewrite Hw.
      destruct (listening w) eqn:Hl.
      * rewrite exec_on_data_set_process.
        rewrite (exec_stop_started (Exec.on_data JSON_parse chunk st) w);
          [now rewrite Hl | now rewrite exec_on_data_process].
      * rewrite (exec_stop_started st w Hw). now rewrite Hl.
    + rewrite (exec_stop_idle st Hw). unfold Exec.step. rewrite Hw.
      symmetry. now apply exec_stop_idle.
  - unfold Exec.step, Exec.stop, Exec.on_timeout.
    destruct (process st) as [w|] eqn:Hw; simpl;
      destruct (timers st !! id) as [method|]; simpl; rewrite ?Hw; try reflexivity;
      destruct (pendingRequests st !! id); simpl; rewrite ?Hw; reflexivity.
Qed.

(** X11: [stop] of the code-execution client only sends a signal: it
    commutes with every later request, chunk and timer, so whatever was
    pending when it ran is still answered or timed out afterwards; a call
    whose timer is armed is rejected with [Request timeout] when the timer
    fires after [stop]. *)
Theorem exec_stop_keeps_calls_alive (st : client) (evs : list event) :
  xrun evs (Exec.stop st) = Exec.stop (xrun evs st) /\
  pendingRequests (Exec.stop st) = pendingRequests st /\
  (forall id p method,
      pendingRequests st !! id = Some p ->
      timers st !! id = Some method ->
      settled (xstep (Exec.stop st) (Timeout id))
      = settled st ++ [(id, Rejected (Error "Request timeout"))]).
Proof.
  split; [|split].
  - revert st. induction evs as [|e evs IH]; intros st; [reflexivity|].
    change (xrun (e :: evs) (Exec.stop st)) with (xrun evs (xstep (Exec.stop st) e)).
    rewrite exec_stop_step. apply IH.
  - unfold Exec.stop. now destruct (process st).
  - intros id p method Hp Ht. rewrite exec_stop_step. simpl. rewrite Ht.
    unfold Exec.on_timeout. simpl. rewrite Hp.
    unfold Exec.stop. simpl. now destruct (process st).
Qed.

(** The tools of the proxy, category by category. *)
Definition proxy_tools : list string := concat (map snd Exec.categories).

Definition unmapped (tool : string) : bool :=
  match Exec.lookup_names tool Exec.paramMappings with
  | Some _ => false
  | None => true
  end.

(** X12: the proxy passes a primitive positional argument on only for the
    five tools of [paramMappings]; for each of the other twenty-one tools it
    defines, a call with primitive arguments sends the same request as a
    call with none, its [arguments] being the empty object. *)
Theorem proxy_drops_unmapped_arguments :
  List.filter unmapped proxy_tools
  = ["drag"; "fill_form"; "handle_dialog"; "hover"; "press_key"; "upload_file";
     "close_page"; "list_pages"; "new_page"; "select_page"; "wait_for";
     "emulate"; "resize_page";
     "performance_analyze_insight"; "performance_start_trace"; "performance_stop_trace";
     "get_network_request"; "list_network_requests";
     "get_console_message"; "list_console_messages"; "take_snapshot"] /\
  (forall category tool args st,
      Exec.has_tool category tool = true ->
      unmapped tool = true ->
      Forall (fun arg => Js.typeof_object arg = false) args ->
      Exec.api_call JSON_stringify category tool args st
      = Exec.api_call JSON_stringify category tool [] st /\
      Exec.api_call JSON_stringify category tool args st
      = Some (request JSON_stringify "tools/call"
                (VObj [("name", VStr tool); ("arguments", VObj [])]) st)).
Proof.
  split; [reflexivity|].
  intros category tool args st Hhas Hun Hprim.
  assert (Hparams : Exec.mapArgsToParams tool args = VObj []).
  { destruct args as [|arg args]; [reflexivity|].
    rewrite mapArgsToParams_combine; [|discriminate|].
    - unfold unmapped in Hun. unfold Exec.paramNames.
      now destruct (Exec.lookup_names tool Exec.paramMappings).
    - intros a Ha. injection Ha as <- ->. now inversion Hprim. }
  unfold Exec.api_call. rewrite Hhas, Hparams. split; reflexivity.
Qed.

End ExecFacts.

(** * Server configuration

    [loadServerMapping] and [loadServerConfig] of the runtime executor
    (index.ts, lines 580-611), and the configuration step of [start] of the
    code-execution client (lines 784-814).  A file is given by what
    [readFile] returns: [Some] text, or [None] when reading fails. *)

Module Loader.

(** The double-quote character (code 34). *)
Definition quote_char : string :=
  String (Ascii false true false false false true false false) EmptyString.

(** The names every object inherits from [Object.prototype]. *)
Definition inherited (key : string) : bool :=
  existsb (String.eqb key)
    ["constructor"; "__proto__"; "hasOwnProperty"; "isPrototypeOf";
     "propertyIsEnumerable"; "toLocaleString"; "toString"; "valueOf";
     "__defineGetter__"; "__defineSetter__"; "__lookupGetter__"; "__lookupSetter__"].

(** [v[key]] for a key chosen at run time, on a non-nullish [v].  The model
    covers objects and the keys they own or do not inherit; [None] marks
    what it leaves out (inherited members, other receivers). *)
Definition member (v : value) (key : string) : option value :=
  match v with
  | VObj props =>
      match Js.assoc key props with
      | Some x => Some x
      | None => if inherited key then None else Some VUndefined
      end
  | _ => None
  end.

Definition index_keys (n : nat) : list string :=
  map (fun i => Js.string_of_Z (Z.of_nat i)) (seq 0 n).

Fixpoint characters (s : string) : list value :=
  match s with
  | EmptyString => []
  | String c r => VStr (String c EmptyString) :: characters r
  end.

(** [Object.keys(v)] paired with [v[key]]; [None] when [Object.keys]
    throws. *)
Definition entries (v : value) : option (list (string * value)) :=
  match v with
  | VUndefined | VNull => None
  | VObj props => Some props
  | VArr items => Some (combine (index_keys (length items)) items)
  | VStr s => Some (combine (index_keys (String.length s)) (characters s))
  | VBool _ | VNum _ => Some []
  end.

(** [x || d] *)
Definition or_default (x d : value) : value := if Js.truthy x then x else d.

Inductive failure : Type :=
| ReadError
| SyntaxError
| TypeError
| NotFound (message : string).

(** What [loadServerConfig] hands back: the triple, a thrown error, or
    [Beyond] when the input leaves the modelled part of [member]. *)
Inductive loaded : Type :=
| Loaded (command args env : value)
| Thrown (e : failure)
| Beyond.

Definition not_found (name : string) : string :=
  "Server " +:+ quote_char +:+ name +:+ quote_char +:+ " not found in .mcp.json".

Section Files.

Variable JSON_parse : string -> option value.

(** [loadServerMapping] (lines 603-611). *)
Definition loadServerMapping (file : option string) : value :=
  match file with
  | Some content =>
      match JSON_parse content with
      | Some mapping => mapping
      | None => VObj []
      end
  | None => VObj []
  end.

(** [serverMapping[key] === serverName] *)
Definition maps_to (serverName : string) (kv : string * value) : bool :=
  match snd kv with
  | VStr s => String.eqb s serverName
  | _ => false
  end.

(** [Object.keys(serverMapping).find(...) || serverName] (line 586). *)
Definition actualServerName (mapping : list (string * value)) (serverName : string)
  : string :=
  match List.find (maps_to serverName) mapping with
  | Some (key, _) => if String.eqb key "" then serverName else key
  | None => serverName
  end.

(** The lookup and the triple (lines 588-597). *)
Definition serverConfig (config : value) (name : string) : loaded :=
  if Js.nullish config then Thrown TypeError
  else
    let servers := Js.get_prop config "mcpServers" in
    if Js.nullish servers then Thrown (NotFound (not_found name))
    else
      match member servers name with
      | None => Beyond
      | Some entry =>
          if Js.truthy entry
          then Loaded (Js.get_prop entry "command")
                      (or_default (Js.get_prop entry "args") (VArr []))
                      (or_default (Js.get_prop entry "env") (VObj []))
          else Thrown (NotFound (not_found name))
      end.

(** [loadServerConfig] (lines 580-598). *)
Definition loadServerConfig (mcp_json mapping_json : option string) (serverName : string)
  : loaded :=
  match mcp_json with
  | None => Thrown ReadError
  | Some content =>
      match JSON_parse content with
      | None => Thrown SyntaxError
      | Some config =>
          match entries (loadServerMapping mapping_json) with
          | None => Thrown TypeError
          | Some mapping => serverConfig config (actualServerName mapping serverName)
          end
      end
  end.

(** What [start] of the code-execution client spawns when the file gives
    nothing (lines 809-813). *)
Definition chrome_devtools : loaded :=
  Loaded (VStr "npx") (VArr [VStr "-y"; VStr "chrome-devtools-mcp@latest"]) (VObj []).

(** [serverName || Object.keys(mcpConfig.mcpServers || {})[0]] (line 792);
    [None] when the expression throws, [Some None] for [undefined]. *)
Definition chosen_server (mcpConfig : value) (serverName : option string)
  : option (option string) :=
  match serverName with
  | Some (String c r) => Some (Some (String c r))
  | _ =>
      if Js.nullish mcpConfig then None
      else
        match entries (or_default (Js.get_prop mcpConfig "mcpServers") (VObj [])) with
        | Some ((key, _) :: _) => Some (Some key)
        | Some [] => Some None
        | None => None
        end
  end.

(** The configuration step of [start] (lines 786-814): every failure inside
    the [try] ends in the Chrome DevTools default. *)
Definition start_config (mcp_json : option string) (serverName : option string) : loaded :=
  match mcp_json with
  | None => chrome_devtools
  | Some content =>
      match JSON_parse content with
      | None => chrome_devtools
      | Some mcpConfig =>
          match chosen_server mcpConfig serverName with
          | None | Some None | Some (Some EmptyString) => chrome_devtools
          | Some (Some server) =>
              if Js.nullish mcpConfig then chrome_devtools
              else
                let servers := Js.get_prop mcpConfig "mcpServers" in
                if Js.nullish servers then chrome_devtools
                else
                  match member servers server with
                  | None => Beyond
                  | Some entry =>
                      if Js.truthy entry
                      then Loaded (Js.get_prop entry "command")
                                  (or_default (Js.get_prop entry "args") (VArr []))
                                  (or_default (Js.get_prop entry "env") (VObj []))
                      else chrome_devtools
                  end
          end
      end
  end.

End Files.

End Loader.

Section LoaderFacts.

Variable JSON_parse : string -> option value.

Local Abbreviation load := (Loader.loadServerConfig JSON_parse).

Lemma or_default_truthy (x d : value) :
  Js.truthy d = true -> Js.truthy (Loader.or_default x d) = true.
Proof. intros Hd. unfold Loader.or_default. now destruct (Js.truthy x) eqn:Hx. Qed.

Lemma find_first (serverName key : string) (before after : list (string * value)) :
  Forall (fun kv => Loader.maps_to serverName kv = false) before ->
  List.find (Loader.maps_to serverName) (before ++ (key, VStr serverName) :: after)
  = Some (key, VStr serverName).
Proof.
  intros Hbefore. induction Hbefore as [|kv before Hkv _ IH]; simpl.
  - unfold Loader.maps_to. simpl. now rewrite String.eqb_refl.
  - now rewrite Hkv.
Qed.

Lemma find_none (serverName : string) (mapping : list (string * value)) :
  Forall (fun kv => Loader.maps_to serverName kv = false) mapping ->
  List.find (Loader.maps_to serverName) mapping = None.
Proof.
  intros Hall. induction Hall as [|kv mapping Hkv _ IH]; simpl; [reflexivity|].
  now rewrite Hkv.
Qed.

(** X13: a wrapper name is turned back into the server it stands for: when
    the mapping file holds an object, the first of its keys whose value is
    the requested name (if that key is not empty) is the server looked up in
    [.mcp.json]; when no key has that value, or the mapping file cannot be
    read or decoded, the requested name is looked up itself. *)
Theorem loadServerConfig_resolves_wrapper_name
  (mcp_json mapping_json : option string) (serverName : string) :
  (forall content before key after,
      mapping_json = Some content ->
      JSON_parse content = Some (VObj (before ++ (key, VStr serverName) :: after)) ->
      Forall (fun kv => Loader.maps_to serverName kv = false) before ->
      key <> "" ->
      load mcp_json mapping_json serverName = load mcp_json None key) /\
  (forall content mapping,
      mapping_json = Some content ->
      JSON_parse content = Some (VObj mapping) ->
      Forall (fun kv => Loader.maps_to serverName kv = false) mapping ->
      load mcp_json mapping_json serverName = load mcp_json None serverName) /\
  (mapping_json = None \/
   (exists content, mapping_json = Some content /\ JSON_parse content = None) ->
   load mcp_json mapping_json serverName = load mcp_json None serverName).
Proof.
  split; [|split].
  - intros content before key after -> Hparse Hbefore Hkey.
    unfold Loader.loadServerConfig. destruct mcp_json as [mcp|]; [|reflexivity].
    destruct (JSON_parse mcp) as [config|]; [|reflexivity].
    simpl. rewrite Hparse. simpl. unfold Loader.actualServerName.
    rewrite (find_first _ _ _ _ Hbefore). simpl.
    apply String.eqb_neq in Hkey. now rewrite Hkey.
  - intros content mapping -> Hparse Hnone.
    unfold Loader.loadServerConfig. destruct mcp_json as [mcp|]; [|reflexivity].
    destruct (JSON_parse mcp) as [config|]; [|reflexivity].
    simpl. rewrite Hparse. simpl. unfold Loader.actualServerName.
    now rewrite (find_none _ _ Hnone).
  - intros [-> | (content & -> & Hparse)]; [reflexivity|].
    unfold Loader.loadServerConfig, Loader.loadServerMapping. now rewrite Hparse.
Qed.

(** X14: what [loadServerConfig] can hand back: a triple whose [args] and
    [env] are never missing (an absent or falsy one is replaced by the empty
    array or object); a read error exactly when [.mcp.json] cannot be read;
    and a not-found error whose message names, between double quotes, the
    server that was looked up: the requested name or a key of the mapping
    that has it as value. *)
Theorem loadServerConfig_outcomes
  (mcp_json mapping_json : option string) (serverName : string) :
  (forall command args env,
      load mcp_json mapping_json serverName = Loader.Loaded command args env ->
      Js.truthy args = true /\ Js.truthy env = true) /\
  (load mcp_json mapping_json serverName = Loader.Thrown Loader.ReadError
   <-> mcp_json = None) /\
  (forall message,
      load mcp_json mapping_json serverName = Loader.Thrown (Loader.NotFound message) ->
      exists name,
        message = "Server " +:+ Loader.quote_char +:+ name +:+ Loader.quote_char
                  +:+ " not found in .mcp.json" /\
        (name = serverName \/
         exists mapping,
           Loader.entries (Loader.loadServerMapping JSON_parse mapping_json) = Some mapping /\
           In (name, VStr serverName) mapping)).
Proof.
  unfold Loader.loadServerConfig.
  destruct mcp_json as [mcp|]; [|repeat split; try discriminate; auto].
  destruct (JSON_parse mcp) as [config|];
    [|split; [discriminate | split; [split; discriminate | discriminate]]].
  destruct (Loader.entries (Loader.loadServerMapping JSON_parse mapping_json))
    as [mapping|] eqn:Hentries;
    [|split; [discriminate | split; [split; discriminate | discriminate]]].
  assert (Hname : Loader.actualServerName mapping serverName = serverName \/
                  In (Loader.actualServerName mapping serverName, VStr serverName) mapping).
  { unfold Loader.actualServerName.
    destruct (List.find (Loader.maps_to serverName) mapping) as [[key v]|] eqn:Hfind;
      [|now left].
    destruct (String.eqb key ""); [now left | right].
    apply find_some in Hfind as [Hin Hmaps].
    unfold Loader.maps_to in Hmaps. simpl in Hmaps.
    destruct v; try discriminate. apply String.eqb_eq in Hmaps. now subst. }
  generalize dependent (Loader.actualServerName mapping serverName). intros name Hname.
  unfold Loader.serverConfig.
  destruct (Js.nullish config);
    [split; [discriminate | split; [split; discriminate | discriminate]]|].
  assert (Hmsg : forall message,
    Loader.Thrown (Loader.NotFound (Loader.not_found name))
    = Loader.Thrown (Loader.NotFound message) ->
    exists name0,
      message = "Server " +:+ Loader.quote_char +:+ name0 +:+ Loader.quote_char
                +:+ " not found in .mcp.json" /\
      (name0 = serverName \/
       exists mapping0, Some mapping = Some mapping0 /\ In (name0, VStr serverName) mapping0)).
  { intros message H. injection H as <-. exists name. split; [reflexivity|].
    destruct Hname as [-> | Hin]; [now left | right]. now exists mapping. }
  destruct (Js.nullish (Js.get_prop config "mcpServers"));
    [split; [discriminate | split; [split; discriminate | exact Hmsg]]|].
  destruct (Loader.member (Js.get_prop config "mcpServers") name) as [entry|];
    [|split; [discriminate | split; [split; discriminate | discriminate]]].
  destruct (Js.truthy entry);
    [|split; [discriminate | split; [split; discriminate | exact Hmsg]]].
  split; [|split; [split; discriminate | discriminate]].
  intros command args env H. injection H as _ <- <-.
  split; now apply or_default_truthy.
Qed.

(** X15: given a server name, the code-execution client reads [.mcp.json]
    as the runtime executor does without a mapping, except that it never
    fails: wherever [loadServerConfig] throws (file unreadable, text not
    JSON, server absent), [start] falls back to launching
    [npx -y chrome-devtools-mcp@latest] with an empty environment. *)
Theorem start_config_falls_back (mcp_json : option string) (serverName : string) :
  serverName <> "" ->
  Loader.start_config JSON_parse mcp_json (Some serverName)
  = match load mcp_json None serverName with
    | Loader.Loaded command args env => Loader.Loaded command args env
    | Loader.Thrown _ => Loader.chrome_devtools
    | Loader.Beyond => Loader.Beyond
    end.
Proof.
  intros Hname. unfold Loader.start_config, Loader.loadServerConfig.
  destruct mcp_json as [mcp|]; [|reflexivity].
  destruct (JSON_parse mcp) as [config|]; [|reflexivity].
  destruct serverName as [|c r]; [contradiction|].
  simpl. unfold Loader.serverConfig.
  change (Loader.actualServerName [] (String c r)) with (String c r).
  destruct (Js.nullish config); [reflexivity|].
  destruct (Js.nullish (Js.get_prop config "mcpServers")); [reflexivity|].
  destruct (Loader.member (Js.get_prop config "mcpServers") (String c r)) as [entry|];
    [|reflexivity].
  now destruct (Js.truthy entry).
Qed.

End LoaderFacts.

(** * Local servers and the environment of the child *)

Module Launch.

Fixpoint starts_with (sub s : string) : bool :=
  match sub, s with
  | EmptyString, _ => true
  | String a sub', String b s' => Ascii.eqb a b && starts_with sub' s'
  | String _ _, EmptyString => false
  end.

(** [s.includes(sub)] on strings. *)
Fixpoint includes (sub s : string) : bool :=
  starts_with sub s
  || match s with
     | String _ r => includes sub r
     | EmptyString => false
     end.

Definition marker : string := ".mcp-server".

(** [x.includes('.mcp-server')]: a substring test on a string, a membership
    test on an array; [None] when the call throws. *)
Definition mentions (x : value) : option bool :=
  match x with
  | VStr s => Some (includes marker s)
  | VArr items =>
      Some (existsb (fun item => match item with
                                 | VStr s => String.eqb s marker
                                 | _ => false
                                 end) items)
  | _ => None
  end.

(** [items.some(arg => arg.includes('.mcp-server'))], left to right. *)
Fixpoint some_mentions (items : list value) : option bool :=
  match items with
  | [] => Some false
  | item :: rest =>
      match mentions item with
      | None => None
      | Some true => Some true
      | Some false => some_mentions rest
      end
  end.

(** [isTypescriptLocal] (index.ts, lines 633-653).  [wrappers] tells whether
    [stat] of [.mcp-server/dist/wrappers] succeeds.  The answer is [None]
    where [loadServerConfig] is beyond its model. *)
Definition isTypescriptLocal (config : Loader.loaded) (wrappers : bool) : option bool :=
  match config with
  | Loader.Beyond => None
  | Loader.Thrown _ => Some false
  | Loader.Loaded command args _ =>
      match mentions command with
      | None => Some false
      | Some true => Some wrappers
      | Some false =>
          match args with
          | VArr items =>
              match some_mentions items with
              | Some true => Some wrappers
              | _ => Some false
              end
          | _ => Some false
          end
      end
  end.

(** [{ ...target, ...source }] continued from [target]: every property of
    [source] is assigned in turn. *)
Definition spread (target source : list (string * value)) : list (string * value) :=
  fold_left (fun acc kv => Js.obj_set (fst kv) (snd kv) acc) source target.

(** The [env] option of [spawn] (index.ts, line 399):
    [{ ...process.env, ...env }]. *)
Definition spawn_env (ambient overrides : list (string * value)) : list (string * value) :=
  spread (spread [] ambient) overrides.

End Launch.

Lemma starts_with_spec (sub s : string) :
  Launch.starts_with sub s = true <-> exists post, s = sub +:+ post.
Proof.
  revert s. induction sub as [|a sub IH]; intros s; simpl.
  - split; [intros _; now exists s | reflexivity].
  - destruct s as [|b s].
    + split; [discriminate | intros [post H]; discriminate H].
    + rewrite andb_true_iff, IH. split.
      * intros [Hab [post ->]]. apply Ascii.eqb_eq in Hab. subst. now exists post.
      * intros [post H]. rewrite append_cons in H. injection H as -> ->.
        split; [apply Ascii.eqb_refl | now exists post].
Qed.

Lemma includes_spec (sub s : string) :
  Launch.includes sub s = true <-> exists pre post, s = pre +:+ sub +:+ post.
Proof.
  induction s as [|c s IH].
  - simpl. rewrite orb_false_r, starts_with_spec. split.
    + intros [post H]. now exists EmptyString, post.
    + intros (pre & post & H). destruct pre; [now exists post | discriminate H].
  - simpl. rewrite orb_true_iff, starts_with_spec, IH. split.
    + intros [[post H] | (pre & post & H)].
      * now exists EmptyString, post.
      * exists (String c pre), post. now rewrite H.
    + intros (pre & post & H). destruct pre as [|a pre].
      * left. now exists post.
      * right. rewrite append_cons in H. injection H as _ ->. now exists pre, post.
Qed.

(** A launch value that names the [.mcp-server] directory: a string that
    contains the marker, or an array that has the marker as an element. *)
Definition names_local_server (x : value) : Prop :=
  (exists pre post, x = VStr (pre +:+ ".mcp-server" +:+ post)) \/
  (exists items, x = VArr items /\ In (VStr ".mcp-server") items).

Lemma mentions_true (x : value) :
  Launch.mentions x = Some true -> names_local_server x.
Proof.
  destruct x; simpl; try discriminate; intros H; injection H as H.
  - left. apply includes_spec in H as (pre & post & ->). now exists pre, post.
  - right. exists items. split; [reflexivity|].
    apply existsb_exists in H as (item & Hin & Hitem).
    destruct item; try discriminate. apply String.eqb_eq in Hitem. now subst.
Qed.

Lemma some_mentions_true (items : list value) :
  Launch.some_mentions items = Some true ->
  exists item, In item items /\ names_local_server item.
Proof.
  induction items as [|item items IH]; simpl; [discriminate|].
  destruct (Launch.mentions item) as [[|]|] eqn:Hitem; try discriminate.
  - intros _. exists item. split; [now left | now apply mentions_true].
  - intros H. destruct (IH H) as (x & Hin & Hx). exists x. split; [now right | exact Hx].
Qed.

(** X16: [isTypescriptLocal] answers [true] only when the server's entry
    was loaded, its command or one of its arguments names the [.mcp-server]
    directory, and the wrappers directory exists; a configuration that
    cannot be loaded, whatever the error, gives [false]. *)
Theorem isTypescriptLocal_only_for_local_servers
  (config : Loader.loaded) (wrappers : bool) :
  (Launch.isTypescriptLocal config wrappers = Some true ->
   wrappers = true /\
   exists command args env,
     config = Loader.Loaded command args env /\
     (names_local_server command \/
      exists items item,
        args = VArr items /\ In item items /\ names_local_server item)) /\
  (forall e, config = Loader.Thrown e ->
             Launch.isTypescriptLocal config wrappers = Some false).
Proof.
  split; [|now intros e ->].
  destruct config as [command args env | e |]; simpl; try discriminate.
  destruct (Launch.mentions command) as [[|]|] eqn:Hcommand; try discriminate.
  - intros H. injection H as ->. split; [reflexivity|].
    exists command, args, env. split; [reflexivity|]. left. now apply mentions_true.
  - destruct args; try discriminate.
    destruct (Launch.some_mentions items) as [[|]|] eqn:Hitems; try discriminate.
    intros H. injection H as ->. split; [reflexivity|].
    exists command, (VArr items), env. split; [reflexivity|]. right.
    destruct (some_mentions_true _ Hitems) as (item & Hin & Hitem).
    now exists items, item.
Qed.

Lemma assoc_obj_set (k k' : string) (v : value) (props : list (string * value)) :
  Js.assoc k (Js.obj_set k' v props)
  = if String.eqb k k' then Some v else Js.assoc k props.
Proof.
  induction props as [|[k0 v0] props IH]; simpl.
  - destruct (String.eqb k k'); reflexivity.
  - destruct (String.eqb k' k0) eqn:E; simpl.
    + apply String.eqb_eq in E. subst k0.
      destruct (String.eqb k k'); reflexivity.
    + destruct (String.eqb k k0) eqn:E0.
      * apply String.eqb_eq in E0. subst k0.
        destruct (String.eqb k k') eqn:E1; [|reflexivity].
        apply String.eqb_eq in E1. subst. rewrite String.eqb_refl in E. discriminate.
      * exact IH.
Qed.

Lemma assoc_spread (k : string) (target source : list (string * value)) :
  List.NoDup (map fst source) ->
  Js.assoc k (Launch.spread target source)
  = match Js.assoc k source with
    | Some v => Some v
    | None => Js.assoc k target
    end.
Proof.
  revert target. induction source as [|[k' v'] source IH]; intros target Hnd;
    [reflexivity|].
  inversion Hnd as [|? ? Hfresh Hnd']; subst.
  unfold Launch.spread in *. simpl. rewrite IH by exact Hnd'.
  destruct (String.eqb k k') eqn:E.
  - apply String.eqb_eq in E. subst k'.
    assert (Hnone : Js.assoc k source = None).
    { clear -Hfresh. induction source as [|[k0 v0] source IH]; simpl; [reflexivity|].
      destruct (String.eqb k k0) eqn:E.
      - apply String.eqb_eq in E. subst. exfalso. apply Hfresh. now left.
      - apply IH. intros H. apply Hfresh. now right. }
    rewrite Hnone, assoc_obj_set, String.eqb_refl. reflexivity.
  - destruct (Js.assoc k source); [reflexivity|].
    now rewrite assoc_obj_set, E.
Qed.

(** X17: in the environment handed to the child, a variable the caller
    overrides has the caller's value, every other variable has the ambient
    one, and no variable comes from elsewhere. *)
Theorem spawn_env_overrides_win
  (ambient overrides : list (string * value)) (k : string) :
  List.NoDup (map fst ambient) ->
  List.NoDup (map fst overrides) ->
  Js.assoc k (Launch.spawn_env ambient overrides)
  = match Js.assoc k overrides with
    | Some v => Some v
    | None => Js.assoc k ambient
    end.
Proof.
  intros Ha Ho. unfold Launch.spawn_env.
  rewrite (assoc_spread k _ overrides Ho), (assoc_spread k [] ambient Ha).
  simpl. now destruct (Js.assoc k ambient).
Qed.

Section TwoClients.

Variable JSON_parse : string -> option value.
Variable JSON_stringify : value -> string.

(** An error response that carries no usable message. *)
Definition bare_error (line : string) : bool :=
  match JSON_parse line with
  | Some response =>
      let err := Js.get_prop response "error" in
      Js.truthy err && negb (Js.truthy (Js.get_prop err "message"))
  | None => false
  end.

Lemma handle_line_agrees (st : client) (line : string) :
  bare_error line = false ->
  Exec.handle_line JSON_parse st line = handle_line JSON_parse JSON_stringify st line.
Proof.
  unfold bare_error, Exec.handle_line, handle_line. intros Hbare.
  destruct (is_blank line); [reflexivity|].
  destruct (JSON_parse line) as [response|]; [|reflexivity].
  destruct (Js.nullish response); [reflexivity|].
  destruct (get_pending (Js.get_prop response "id") st) as [[id p]|]; [|reflexivity].
  simpl in Hbare.
  destruct (Js.truthy (Js.get_prop response "error")) eqn:Herr; [|reflexivity].
  simpl in Hbare. apply negb_false_iff in Hbare.
  unfold Exec.error_message, error_message. now rewrite Hbare.
Qed.

(** X18: the code-execution client and the runtime executor handle every
    chunk alike as long as no line in it is an error response without a
    message; on such a line, when it answers a pending call, the first
    rejects the call with [MCP error] and the second with the JSON text of
    the error. *)
Theorem clients_differ_only_on_bare_errors :
  (forall chunk st,
      Forall (fun line => bare_error line = false)
        (complete_lines (buffer st +:+ chunk)) ->
      Exec.on_data JSON_parse chunk st = on_data JSON_parse JSON_stringify chunk st) /\
  (forall st line response id p,
      is_blank line = false ->
      JSON_parse line = Some response ->
      Js.get_prop response "id" = VNum id ->
      pendingRequests st !! id = Some p ->
      bare_error line = true ->
      settled (Exec.handle_line JSON_parse st line)
      = settled st ++ [(call p, Rejected (Error "MCP error"))] /\
      settled (handle_line JSON_parse JSON_stringify st line)
      = settled st ++ [(call p, Rejected
                          (Error (JSON_stringify (Js.get_prop response "error"))))]).
Proof.
  split.
  - intros chunk st Hlines.
    unfold Exec.on_data, on_data, Exec.processBuffer, processBuffer. simpl buffer.
    generalize (set_buffer (remainder (buffer st +:+ chunk))
                  (set_buffer (buffer st +:+ chunk) st)) as s.
    induction Hlines as [|l lines Hl _ IH]; intros s; [reflexivity|].
    simpl. rewrite (handle_line_agrees s l Hl). apply IH.
  - intros st line response id p Hblank Hparse Hid Hp Hbare.
    unfold bare_error in Hbare. rewrite Hparse in Hbare. simpl in Hbare.
    apply andb_true_iff in Hbare as [Herr Hmsg]. apply negb_true_iff in Hmsg.
    assert (Hobj : Js.nullish response = false).
    { destruct response; simpl in Hid; try discriminate. reflexivity. }
    unfold Exec.handle_line, handle_line.
    rewrite Hblank, Hparse, Hobj, Hid. unfold get_pending. rewrite Hp, Herr.
    unfold Exec.error_message, error_message. rewrite Hmsg. split; reflexivity.
Qed.

End TwoClients.

(** ** Concrete runs for the further properties *)

Lemma armed_handshaking : armed handshaking.
Proof.
  unfold handshaking, start, request. simpl. split; simpl; [discriminate|].
  intros id p H. apply lookup_insert_Some in H as [[<- _] | [_ H]].
  - now rewrite lookup_insert_eq.
  - now rewrite lookup_empty in H.
Qed.

Lemma armed_busy : armed busy.
Proof. apply armed_run, armed_run, armed_handshaking. Qed.

Definition noisy_chunks : list string :=
  [ "npm warn deprecated" +:+ newline +:+ "   " +:+ newline
    +:+ Json.text "{'jsonrpc':'2.0','id':3,'res";
    Json.text "ult':7}" +:+ newline +:+ "Listening on stdio" +:+ newline ].

Lemma malformed_lines_are_skipped_witness :
  feed Json.parse Json.stringify noisy_chunks busy
  = deliver Json.parse Json.stringify
      [Json.text "{'jsonrpc':'2.0','id':3,'result':7}"] busy.
Proof.
  rewrite (malformed_lines_are_skipped Json.parse Json.stringify noisy_chunks busy eq_refl).
  vm_compute. reflexivity.
Defined.

Lemma entries_never_outlive_timers_witness :
  timers busy !! 3 = Some "tools/call" /\
  pendingRequests (step Json.parse Json.stringify busy (Timeout 3)) !! 3 = None.
Proof.
  destruct (entries_never_outlive_timers Json.parse Json.stringify busy [] armed_busy
              3 (mkPending 3) eq_refl) as ([method Hm] & Hgone & _).
  split; [reflexivity | exact Hgone].
Defined.

Lemma timer_after_settlement_is_idle_witness :
  settled (step Json.parse Json.stringify ready (Timeout 1)) = settled ready.
Proof.
  apply (timer_after_settlement_is_idle Json.parse Json.stringify ready 1 consistent_ready).
  vm_compute. now left.
Defined.

Lemma request_without_process_strands_entry_witness :
  pendingRequests
    (stop
       (run Json.parse Json.stringify [Timeout 1; Data init_response]
          (snd (request Json.stringify "tools/list" (VObj []) new_client)))) !! 1
  = Some (mkPending 1).
Proof.
  apply (request_without_process_strands_entry Json.parse Json.stringify new_client
           "tools/list" (VObj []) [Timeout 1; Data init_response] eq_refl).
  intros id method H. simpl in H. now rewrite lookup_empty in H.
Defined.




Definition nested_rows : value :=
  VObj [("rows", VArr [VObj [("", VObj [("", VNum 1)])]; VObj [("id", VObj [("", VNull)])]])].

Lemma normalizeData_leaves_no_envelope_witness :
  envelope_free (normalizeData nested_rows) = true /\
  normalizeData nested_rows = VObj [("rows", VArr [VNum 1; VObj [("id", VNull)]])].
Proof.
  split; [|reflexivity].
  apply (normalizeData_leaves_no_envelope nested_rows); reflexivity.
Defined.

Lemma normalizeData_unchanged_iff_no_envelope_witness :
  normalizeData (VObj [("rows", VArr [VNum 1; VObj [("id", VNull)]])])
  = VObj [("rows", VArr [VNum 1; VObj [("id", VNull)]])].
Proof.
  apply (normalizeData_unchanged_iff_no_envelope
           (VObj [("rows", VArr [VNum 1; VObj [("id", VNull)]])])); reflexivity.
Defined.

Lemma mapArgsToParams_pairs_witness :
  Exec.mapArgsToParams "fill" [VStr "#name"; VStr "Ada"; VNum 3]
  = VObj [("selector", VStr "#name"); ("value", VStr "Ada")] /\
  Exec.mapArgsToParams "press_key" [VStr "Enter"] = VObj [] /\
  Exec.mapArgsToParams "press_key" [VNull] = VNull.
Proof.
  split; [|split].
  - apply (proj2 (proj2 (mapArgsToParams_pairs "fill" [VStr "#name"; VStr "Ada"; VNum 3]))).
    + discriminate.
    + intros arg H. discriminate H.
  - apply (proj2 (proj2 (mapArgsToParams_pairs "press_key" [VStr "Enter"]))).
    + discriminate.
    + intros arg H. injection H as <-. reflexivity.
    + reflexivity.
  - apply (proj1 (proj2 (mapArgsToParams_pairs "press_key" []))). reflexivity.
Defined.

Lemma proxy_drops_unmapped_arguments_witness :
  Exec.api_call Json.stringify "input" "press_key" [VStr "Enter"] handshaking
  = Exec.api_call Json.stringify "input" "press_key" [] handshaking.
Proof.
  apply (proj2 (proxy_drops_unmapped_arguments Json.stringify)
           "input" "press_key" [VStr "Enter"] handshaking); try reflexivity.
  now repeat constructor.
Defined.

Definition mcp_json : string :=
  Json.text "{'mcpServers':{'mssql-main':{'command':'node','args':['.mcp-server/dist/index.js']},'chrome':{'command':'npx','env':{'DEBUG':'1'}}}}".

Definition mapping_json : string :=
  Json.text "{'mssql-main':'mssql','mssql-dev':'mssql','chrome':'chrome-devtools'}".

Lemma loadServerConfig_resolves_wrapper_name_witness :
  Loader.loadServerConfig Json.parse (Some mcp_json) (Some mapping_json) "mssql"
  = Loader.loadServerConfig Json.parse (Some mcp_json) None "mssql-main".
Proof.
  apply (proj1 (loadServerConfig_resolves_wrapper_name Json.parse
                  (Some mcp_json) (Some mapping_json) "mssql")
           mapping_json []
           "mssql-main"
           [("mssql-dev", VStr "mssql"); ("chrome", VStr "chrome-devtools")]).
  - reflexivity.
  - reflexivity.
  - constructor.
  - discriminate.
Defined.

Lemma loadServerConfig_outcomes_witness :
  Loader.loadServerConfig Json.parse (Some mcp_json) (Some mapping_json) "mssql"
  = Loader.Loaded (VStr "node") (VArr [VStr ".mcp-server/dist/index.js"]) (VObj []) /\
  Js.truthy (VObj []) = true.
Proof.
  split; [reflexivity|].
  apply (proj1 (loadServerConfig_outcomes Json.parse
                  (Some mcp_json) (Some mapping_json) "mssql")
           (VStr "node") (VArr [VStr ".mcp-server/dist/index.js"]) (VObj [])).
  reflexivity.
Defined.

Lemma start_config_falls_back_witness :
  Loader.start_config Json.parse (Some mcp_json) (Some "postgres") = Loader.chrome_devtools /\
  Loader.loadServerConfig Json.parse (Some mcp_json) None "postgres"
  = Loader.Thrown (Loader.NotFound (Loader.not_found "postgres")).
Proof.
  split; [|reflexivity].
  rewrite (start_config_falls_back Json.parse (Some mcp_json) "postgres");
    [reflexivity | discriminate].
Defined.

Lemma isTypescriptLocal_only_for_local_servers_witness :
  Launch.isTypescriptLocal
    (Loader.loadServerConfig Json.parse (Some mcp_json) (Some mapping_json) "mssql") true
  = Some true /\
  Launch.isTypescriptLocal
    (Loader.loadServerConfig Json.parse (Some mcp_json) None "postgres") true
  = Some false.
Proof.
  split; [reflexivity|].
  apply (proj2 (isTypescriptLocal_only_for_local_servers
                  (Loader.loadServerConfig Json.parse (Some mcp_json) None "postgres") true)
           (Loader.NotFound (Loader.not_found "postgres"))).
  reflexivity.
Defined.

Lemma spawn_env_overrides_win_witness :
  Js.assoc "PATH"
    (Launch.spawn_env [("HOME", VStr "/root"); ("PATH", VStr "/usr/bin")]
                      [("PATH", VStr "/opt/bin"); ("DEBUG", VStr "1")])
  = Some (VStr "/opt/bin").
Proof.
  rewrite (spawn_env_overrides_win
             [("HOME", VStr "/root"); ("PATH", VStr "/usr/bin")]
             [("PATH", VStr "/opt/bin"); ("DEBUG", VStr "1")] "PATH").
  - reflexivity.
  - apply nodup_keys_NoDup. reflexivity.
  - apply nodup_keys_NoDup. reflexivity.
Defined.

Definition bare_error_line : string :=
  Json.text "{'jsonrpc':'2.0','id':3,'error':{'code':-32000}}".

Lemma clients_differ_only_on_bare_errors_witness :
  settled (Exec.handle_line Json.parse busy bare_error_line)
  = settled busy ++ [(3, Rejected (Error "MCP error"))] /\
  settled (handle_line Json.parse Json.stringify busy bare_error_line)
  = settled busy ++ [(3, Rejected (Error (Json.text "{'code':-32000}")))].
Proof.
  apply (proj2 (clients_differ_only_on_bare_errors Json.parse Json.stringify)
           busy bare_error_line
           (VObj [("jsonrpc", VStr "2.0"); ("id", VNum 3);
                  ("error", VObj [("code", VNum (-32000))])])
           3 (mkPending 3)); reflexivity.
Defined.

Section Writes.

Variable JSON_parse : string -> option value.
Variable JSON_stringify : value -> string.

Local Abbreviation send_each := (send_all JSON_parse JSON_stringify).

(** The frames of a run of calls, the first of which gets the id [first]. *)
Fixpoint frames_from (first : Z) (calls : list (string * value)) : list string :=
  match calls with
  | [] => []
  | (method, params) :: rest =>
      request_frame JSON_stringify first method params :: frames_from (first + 1) rest
  end.

Fixpoint methods_from (first : Z) (calls : list (string * value)) : list (Z * string) :=
  match calls with
  | [] => []
  | (method, _) :: rest => (first, method) :: methods_from (first + 1) rest
  end.

Lemma methods_from_bound (first : Z) (calls : list (string * value)) (id : Z) (m : string) :
  In (id, m) (methods_from first calls) -> first <= id.
Proof.
  revert first. induction calls as [|[method params] calls IH]; intros first; simpl;
    [intros []|].
  intros [H | H]; [injection H as <- _; lia|].
  specialize (IH _ H). lia.
Qed.

Lemma send_all_timer_kept (calls : list (string * value)) (st : client) (id : Z) :
  id <= requestId st ->
  timers (send_each calls st) !! id = timers st !! id.
Proof.
  intros Hid. unfold send_all.
  apply (timer_run JSON_parse JSON_stringify); [exact Hid|].
  intros Hin. apply in_map_iff in Hin as (c & Hc & _). discriminate Hc.
Qed.

(** X19: calls issued one after the other on a started client are written
    to the worker one frame each, in the order of the calls and with
    consecutive ids, and each arms the timer that carries its own method
    name. *)
Theorem requests_are_written_in_order
  (calls : list (string * value)) (st : client) (w : worker) :
  process st = Some w ->
  (exists w',
      process (send_each calls st) = Some w' /\
      stdin w' = stdin w ++ frames_from (requestId st + 1) calls /\
      signals w' = signals w) /\
  (forall id method,
      In (id, method) (methods_from (requestId st + 1) calls) ->
      timers (send_each calls st) !! id = Some method).
Proof.
  revert st w. induction calls as [|[method params] calls IH]; intros st w Hw.
  - split; [|intros id m []]. exists w. simpl. now rewrite app_nil_r.
  - change (send_each ((method, params) :: calls) st)
      with (send_each calls (snd (request JSON_stringify method params st))).
    set (st1 := snd (request JSON_stringify method params st)).
    assert (Hst1 : process st1
                   = Some (write (request_frame JSON_stringify (requestId st + 1)
                                    method params) w)
                   /\ requestId st1 = requestId st + 1
                   /\ timers st1 !! (requestId st + 1) = Some method).
    { unfold st1, request. rewrite Hw. simpl.
      split; [reflexivity|]. split; [reflexivity | apply lookup_insert_eq]. }
    destruct Hst1 as (Hw1 & Hr1 & Ht1).
    destruct (IH st1 _ Hw1) as ((w' & Hw' & Hin' & Hsig') & Htimers).
    rewrite Hr1 in Hin', Htimers. split.
    + exists w'. split; [exact Hw'|]. split; [|exact Hsig'].
      rewrite Hin'. simpl. now rewrite <- app_assoc.
    + intros id m [H | H].
      * injection H as <- <-.
        rewrite send_all_timer_kept; [exact Ht1 | lia].
      * now apply Htimers.
Qed.

End Writes.

Section CallerFacing.

Variable JSON_parse : string -> option value.


End CallerFacing.

Lemma requests_are_written_in_order_witness :
  option_map stdin (process busy)
  = option_map (fun w => stdin w ++ frames_from Json.stringify 2 three_calls) (process ready).
Proof.
  destruct (process ready) as [w|] eqn:Hw; [|discriminate Hw].
  destruct (requests_are_written_in_order Json.parse Json.stringify three_calls ready w Hw)
    as ((w' & Hw' & Hin & _) & _).
  unfold busy. rewrite Hw'. simpl. now rewrite Hin.
Defined.


Section Settlement.

Variable JSON_parse : string -> option value.
Variable JSON_stringify : value -> string.

Local Abbreviation send := (request JSON_stringify).
Local Abbreviation next := (step JSON_parse JSON_stringify).
Local Abbreviation play := (run JSON_parse JSON_stringify).

Lemma settled_grows_step (st : client) (e : event) :
  exists new, settled (next st e) = settled st ++ new.
Proof.
  destruct e as [method params | chunk | id]; simpl.
  - unfold request. destruct (process st); simpl.
    + exists []. now rewrite app_nil_r.
    + now eexists.
  - destruct (process st) as [w|]; [|exists []; now rewrite app_nil_r].
    destruct (listening w); [|exists []; now rewrite app_nil_r].
    rewrite receive_frames.
    destruct (accept_shrinks JSON_parse JSON_stringify
                (complete_lines (buffer st +:+ chunk))
                (set_buffer (remainder (buffer st +:+ chunk)) st))
      as (_ & new & Hnew & _).
    exists new. exact Hnew.
  - destruct (timers st !! id) as [method|]; [|exists []; now rewrite app_nil_r].
    unfold on_timeout. simpl.
    destruct (pendingRequests st !! id); simpl.
    + now eexists.
    + exists []. now rewrite app_nil_r.
Qed.

Lemma settled_grows_run (evs : list event) (st : client) :
  exists new, settled (play evs st) = settled st ++ new.
Proof.
  revert st. induction evs as [|e evs IH]; intros st.
  - exists []. simpl. now rewrite app_nil_r.
  - change (play (e :: evs) st) with (play evs (next st e)).
    destruct (settled_grows_step st e) as [new1 H1].
    destruct (IH (next st e)) as [new2 H2].
    exists (new1 ++ new2). now rewrite H2, H1, app_assoc.
Qed.

Lemma first_outcome_kept (c : Z) (o : outcome) (log new : list (Z * outcome)) :
  first_outcome c log = Some o -> first_outcome c (log ++ new) = Some o.
Proof.
  induction log as [|[c' o'] log IH]; simpl; [discriminate|].
  destruct (Z.eqb c c'); [auto | exact IH].
Qed.

(** X21: on a started client, along a run none of whose lines decodes to
    an error with a message [new Error] cannot convert, every request is
    settled by the time its timer has fired: either a response settled it
    before, or the timer rejects it; and once a call is settled, nothing
    that happens later changes what it was settled with. *)
Theorem calls_are_settled_when_their_timer_fires
  (st : client) (method : string) (params : value) (evs : list event) :
  consistent st ->
  let id := fst (send method params st) in
  let sent := snd (send method params st) in
  let fired := next (play evs sent) (Timeout id) in
  ~ In (Timeout id) evs ->
  Forall (fun line => throws_in_error JSON_parse line = false)
         (lines_handled JSON_parse JSON_stringify evs sent) ->
  (exists o, promise_state fired id = Some o) /\
  (forall later c o,
      promise_state fired c = Some o ->
      promise_state (play later fired) c = Some o).
Proof.
  intros Hst id sent fired Hev _. split.
  - set (waiting := play evs sent).
    assert (Hwaiting : consistent waiting).
    { apply consistent_run. now apply consistent_send. }
    assert (Htimer : timers waiting !! id = Some method).
    { unfold waiting, sent. rewrite timer_run; [| |exact Hev].
      - unfold id, request. destruct (process st) as [w|] eqn:Hw.
        + simpl. apply lookup_insert_eq.
        + now destruct (started st Hst).
      - unfold id, request. destruct (process st); simpl; lia. }
    destruct (timers_live _ Hwaiting _ _ Htimer) as [Hin | Hp].
    + destruct (promise_state waiting id) as [o|] eqn:Ho.
      * exists o. unfold promise_state, fired. fold waiting.
        destruct (settled_grows_step waiting (Timeout id)) as [new ->].
        now apply first_outcome_kept.
      * apply first_outcome_None in Ho. contradiction.
    + exists (Rejected (Error ("Request timeout: " +:+ method))).
      unfold fired. fold waiting. simpl. rewrite Htimer. unfold on_timeout. simpl.
      rewrite Hp. unfold promise_state. simpl.
      rewrite first_outcome_app_r.
      * simpl. now rewrite Z.eqb_refl.
      * exact (table_unsettled _ Hwaiting _ _ Hp).
  - intros later c o Ho. unfold promise_state in *.
    destruct (settled_grows_run later fired) as [new ->].
    now apply first_outcome_kept.
Qed.

End Settlement.

Lemma calls_are_settled_when_their_timer_fires_witness :
  exists o,
    promise_state
      (step Json.parse Json.stringify
         (run Json.parse Json.stringify
            [Data (Json.text "{'jsonrpc':'2.0','id':2,'result':{'pages':[1,2]}}" +:+ newline)]
            (snd (request Json.stringify "tools/call"
                    (VObj [("name", VStr "list_pages")]) ready)))
         (Timeout 2)) 2
    = Some o.
Proof.
  apply (calls_are_settled_when_their_timer_fires Json.parse Json.stringify ready
           "tools/call" (VObj [("name", VStr "list_pages")])
           [Data (Json.text "{'jsonrpc':'2.0','id':2,'result':{'pages':[1,2]}}" +:+ newline)]
           consistent_ready).
  - intros [H | []]. discriminate H.
  - change (lines_handled Json.parse Json.stringify _ _)
      with ([Json.text "{'jsonrpc':'2.0','id':2,'result':{'pages':[1,2]}}"]
            ++ lines_handled Json.parse Json.stringify [] ready).
    apply List.Forall_cons; [vm_compute; reflexivity | apply List.Forall_nil].
Defined.
